(** * OpenTPU matrix unit ([matrix.py]): a shallow embedding of the PyRTL design

    [matrix.py] describes a synchronous circuit with PyRTL.  Every Python
    function of the file builds a piece of hardware: it may raise while it
    builds (a Python exception), and what it builds is a set of registers
    together with the combinational logic that computes, in each clock cycle,
    the outputs and the next value of every register.

    Each hardware function [f] of the source is embedded as one Rocq function
    of the same name.  It takes the source's parameters, the current values
    of the registers that [f] declares (a record [fregs]), and the wires that
    are its inputs in this cycle; it returns either [Raise msg] (the build
    fails) or [Ok (outputs, next registers)].  One clock cycle of the circuit
    is one call.  The file is Python 2: [/] on integers is floor division. *)

From Stdlib Require Import ZArith List Bool Lia String PeanoNat.
Import ListNotations.
Local Open Scope Z_scope.

(** ** Build-time errors *)

Inductive result (A : Type) : Type :=
| Ok (a : A)
| Raise (msg : string).
Arguments Ok {A} a.
Arguments Raise {A} msg.

Definition bind {A B : Type} (c : result A) (k : A -> result B) : result B :=
  match c with
  | Ok a => k a
  | Raise msg => Raise msg
  end.

Notation "x <- c ;; k" := (bind c (fun x => k))
  (at level 61, c at next level, right associativity).
Notation "' p <- c ;; k" := (bind c (fun x => let p := x in k))
  (at level 61, p pattern, c at next level, right associativity).

(** ** The PyRTL operations the design uses *)

Module PyRTL.

(** A wire has a bit width, fixed when the circuit is built, and carries a
    value in each cycle. *)
Record WireVector : Type := Wire { bitwidth : nat; value : Z }.

Definition len (w : WireVector) : nat := bitwidth w.

(** The values a wire of its width can carry. *)
Definition wf (w : WireVector) : Prop := 0 <= value w < 2 ^ Z.of_nat (bitwidth w).

Definition truncate (n : nat) (x : Z) : Z := x mod 2 ^ Z.of_nat n.

(** [Const(c)]: as narrow as [c] allows, one bit at least. *)
Definition Const (c : Z) : WireVector := Wire (S (Z.to_nat (Z.log2 c))) c.

(** [Register(n)], read in the current cycle. *)
Definition Register (n : nat) (v : Z) : WireVector := Wire n v.

(** [r.next <<= rhs] and [r.next |= rhs] for an [n]-bit register: the value
    the register takes at the clock edge; a wider right-hand side loses its
    high bits. *)
Definition next (n : nat) (rhs : WireVector) : Z := truncate n (value rhs).

(** [a + b] is one bit wider than its wider operand, [a * b] as wide as both
    together: neither loses a carry. *)
Definition wadd (a b : WireVector) : WireVector :=
  Wire (S (Nat.max (bitwidth a) (bitwidth b))) (value a + value b).
Definition wmul (a b : WireVector) : WireVector :=
  Wire (bitwidth a + bitwidth b) (value a * value b).
Definition wxor (a b : WireVector) : WireVector :=
  Wire (Nat.max (bitwidth a) (bitwidth b)) (Z.lxor (value a) (value b)).
Definition wand (a b : WireVector) : WireVector :=
  Wire (Nat.max (bitwidth a) (bitwidth b)) (Z.land (value a) (value b)).
Definition wnot (a : WireVector) : WireVector :=
  Wire (bitwidth a) (Z.lxor (value a) (Z.ones (Z.of_nat (bitwidth a)))).
(** [a == b] and [a != b] extend the narrower operand with zeros and give
    one bit. *)
Definition weq (a b : WireVector) : WireVector :=
  Wire 1 (if value a =? value b then 1 else 0).
Definition wne (a b : WireVector) : WireVector := wnot (weq a b).
(** [select(sel, truecase, falsecase)] *)
Definition select (sel t f : WireVector) : WireVector :=
  Wire (Nat.max (bitwidth t) (bitwidth f)) (if value sel =? 0 then value f else value t).
(** [w[lo:hi]]: bits [lo] to [hi - 1], bit 0 the least significant. *)
Definition slice (lo hi : nat) (w : WireVector) : WireVector :=
  let n := (Nat.min hi (bitwidth w) - lo)%nat in
  Wire n (truncate n (Z.shiftr (value w) (Z.of_nat lo))).
(** [concat_list(ws)]: the first wire of the list is the least significant. *)
Fixpoint concat_list (ws : list WireVector) : WireVector :=
  match ws with
  | [] => Wire 0 0
  | w :: ws' =>
      let hi := concat_list ws' in
      Wire (bitwidth w + bitwidth hi)
           (value w + Z.shiftl (value hi) (Z.of_nat (bitwidth w)))
  end.
(** [mux(index, *ins)]: input number [index]; PyRTL refuses to build it
    unless there are exactly [2 ** len(index)] inputs. *)
Definition mux (index : WireVector) (ins : list WireVector) : result WireVector :=
  if (2 ^ bitwidth index =? List.length ins)%nat
  then Ok (Wire (fold_right (fun w n => Nat.max (bitwidth w) n) 0%nat ins)
                (value (nth (Z.to_nat (value index)) ins (Wire 0 0))))
  else Raise "Mux select line is wrong size for the number of inputs"%string.

(** A wire used as the condition of a [with] block holds when it is not 0. *)
Definition is_set (w : WireVector) : bool := negb (value w =? 0).

(** Under [with conditional_assignment:], the [with c:] blocks of one nesting
    level form a priority chain: a block is taken when its condition holds
    and no earlier condition of the chain does; [with otherwise:] is taken
    when none does, and closes the chain, so that a [with] block after it
    begins a new chain.  A register that no taken block assigns with [|=]
    keeps its value; a plain wire that none assigns is 0.  [<<=] is the
    unconditional connection, also when it is written inside a [with]
    block.  The predicate of an assignment, the conjunction of the conditions
    around it, must be one bit wide. *)
Definition predicate (p : WireVector) : result bool :=
  if (len p =? 1)%nat then Ok (is_set p)
  else Raise "conditional predicate with length greater than 1"%string.

End PyRTL.
Import PyRTL.

(** The values of a one-bit register or wire. *)
Definition bit (x : Z) : Prop := x = 0 \/ x = 1.

(** ** Configuration constants *)

Definition DATWIDTH : nat := 8.
Definition MATSIZE : nat := 4.
Definition ACCSIZE : nat := 512.

(** ** [MAC]: one processing element *)

Record MACregs : Type := mkMACregs {
  wbuf1 : Z;
  wbuf2 : Z;
  current_buffer_reg : Z;
  data_reg : Z;
  switch_reg : Z;
  acc_reg : Z;
  weight_reg : Z;
  weight_we_reg : Z;
  weight_tag_reg : Z
}.

(** The registers are 0 when the circuit starts. *)
Definition MAC_reset : MACregs := mkMACregs 0 0 0 0 0 0 0 0 0.

(** What [MAC] returns: six registers, read by the neighbouring cells. *)
Record MACouts : Type := mkMACouts {
  o_acc : WireVector;
  o_data : WireVector;
  o_switch : WireVector;
  o_weight : WireVector;
  o_weight_we : WireVector;
  o_weight_tag : WireVector
}.

(** The wires inside [MAC] that the properties below talk about. *)
Definition MAC_current_buffer (r : MACregs) (switchw : WireVector) : WireVector :=
  wxor (Register 1 (current_buffer_reg r)) switchw.

Definition MAC_weight (r : MACregs) (switchw weight_in : WireVector) : WireVector :=
  select (MAC_current_buffer r switchw)
         (Register (len weight_in) (wbuf2 r)) (Register (len weight_in) (wbuf1 r)).

Definition MAC_out (r : MACregs) (data_in acc_in switchw weight_in : WireVector)
  : WireVector :=
  let product := wmul (MAC_weight r switchw weight_in) data_in in
  let out := wadd product acc_in in
  if (32 <? len out)%nat then slice 0 32 out else out.

Definition MAC (data_width matrix_size : nat) (r : MACregs)
    (data_in acc_in switchw weight_in weight_we weight_tag : WireVector)
  : result (MACouts * MACregs) :=
  (* if len(weight_in) != len(data_in) != data_width: a chained comparison,
     [a != b and b != c] *)
  if negb (len weight_in =? len data_in)%nat && negb (len data_in =? data_width)%nat
  then Raise "Expected 8-bit value in MAC."%string
  else if negb (len switchw =? len weight_we)%nat && negb (len weight_we =? 1)%nat
  then Raise "Expected 1-bit control signal in MAC."%string
  else
    let current_buffer := MAC_current_buffer r switchw in
    (* with switchw: current_buffer_reg.next |= ~current_buffer_reg *)
    sw <- predicate switchw ;;
    let current_buffer_reg' :=
      if sw then next 1 (wnot (Register 1 (current_buffer_reg r)))
      else current_buffer_reg r in
    (* with weight_we & (weight_tag == Const(MATSIZE-1)):
         with current_buffer == 0: wbuf2.next |= weight_in
         with otherwise:           wbuf1.next |= weight_in *)
    let store := wand weight_we (weq weight_tag (Const (Z.of_nat MATSIZE - 1))) in
    let first := weq current_buffer (Const 0) in
    to2 <- predicate (wand store first) ;;
    to1 <- predicate (wand store (wnot first)) ;;
    let wbuf2' := if to2 then next (len weight_in) weight_in else wbuf2 r in
    let wbuf1' := if to1 then next (len weight_in) weight_in else wbuf1 r in
    let out := MAC_out r data_in acc_in switchw weight_in in
    Ok ({| o_acc := Register (len out) (acc_reg r);
           o_data := Register (len data_in) (data_reg r);
           o_switch := Register 1 (switch_reg r);
           o_weight := Register (len weight_in) (weight_reg r);
           o_weight_we := Register 1 (weight_we_reg r);
           o_weight_tag := Register (len weight_tag) (weight_tag_reg r) |},
        {| wbuf1 := wbuf1';
           wbuf2 := wbuf2';
           current_buffer_reg := current_buffer_reg';
           data_reg := next (len data_in) data_in;
           switch_reg := next 1 switchw;
           acc_reg := next (len out) out;
           weight_reg := next (len weight_in) weight_in;
           weight_we_reg := next 1 weight_we;
           weight_tag_reg :=
             next (len weight_tag)
                  (slice 0 (len weight_tag) (wadd weight_tag (Const 1))) |}).

(** The cell that is built when both checks pass: its outputs and the next
    value of its registers. *)
Definition MAC_next (r : MACregs)
    (data_in acc_in switchw weight_in weight_we weight_tag : WireVector) : MACregs :=
  let current_buffer := MAC_current_buffer r switchw in
  let store := wand weight_we (weq weight_tag (Const (Z.of_nat MATSIZE - 1))) in
  let first := weq current_buffer (Const 0) in
  let out := MAC_out r data_in acc_in switchw weight_in in
  {| wbuf1 := if is_set (wand store (wnot first))
              then next (len weight_in) weight_in else wbuf1 r;
     wbuf2 := if is_set (wand store first)
              then next (len weight_in) weight_in else wbuf2 r;
     current_buffer_reg :=
       if is_set switchw then next 1 (wnot (Wire 1 (current_buffer_reg r)))
       else current_buffer_reg r;
     data_reg := next (len data_in) data_in;
     switch_reg := next 1 switchw;
     acc_reg := next (len out) out;
     weight_reg := next (len weight_in) weight_in;
     weight_we_reg := next 1 weight_we;
     weight_tag_reg :=
       next (len weight_tag) (slice 0 (len weight_tag) (wadd weight_tag (Const 1))) |}.

Definition MAC_outs (r : MACregs) (data_in acc_in switchw weight_in weight_tag : WireVector)
  : MACouts :=
  {| o_acc := Wire (len (MAC_out r data_in acc_in switchw weight_in)) (acc_reg r);
     o_data := Wire (len data_in) (data_reg r);
     o_switch := Wire 1 (switch_reg r);
     o_weight := Wire (len weight_in) (weight_reg r);
     o_weight_we := Wire 1 (weight_we_reg r);
     o_weight_tag := Wire (len weight_tag) (weight_tag_reg r) |}.

(** The buffer that a selector value leaves unused, and the one it selects:
    [select(current_buffer, wbuf2, wbuf1)] multiplies by [wbuf1] when the
    selector is 0 and by [wbuf2] otherwise. *)
Definition inactive_buffer (selector : Z) (r : MACregs) : Z :=
  if selector =? 0 then wbuf2 r else wbuf1 r.
Definition active_buffer (selector : Z) (r : MACregs) : Z :=
  if selector =? 0 then wbuf1 r else wbuf2 r.

(** The condition of the weight capture,
    [weight_we & (weight_tag == Const(MATSIZE-1))]. *)
Definition MAC_store (weight_we weight_tag : WireVector) : bool :=
  is_set (wand weight_we (weq weight_tag (Const (Z.of_nat MATSIZE - 1)))).

(** ** Python helpers *)

(** [l[i]] *)
Definition index {A : Type} (l : list A) (i : nat) : result A :=
  match nth_error l i with
  | Some x => Ok x
  | None => Raise "IndexError: list index out of range"%string
  end.

(** [size = start; while pow(2, size) < bound: size = grow(size)].  The loop
    runs at most [fuel] times; [bound] rounds are always enough when [grow]
    increases [size]. *)
Fixpoint while_pow2_below (fuel : nat) (grow : nat -> nat) (size : nat) (bound : Z) : nat :=
  match fuel with
  | O => size
  | S fuel' =>
      if 2 ^ Z.of_nat size <? bound
      then while_pow2_below fuel' grow (grow size) bound
      else size
  end.

Definition shl1 (n : nat) : nat := (2 * n)%nat.

(** [x <<= w] for a wire [x] declared [n] bits wide. *)
Definition assign (n : nat) (w : WireVector) : WireVector := Wire n (truncate n (value w)).

(** ** [MMArray]: the grid of cells and its programming sequencer *)

(** The signals that travel down column [j]: [data_out[j]],
    [weights_in_last[j]], [weights_enable[j]] and [weights_tag[j]]. *)
Record Column : Type := mkColumn {
  c_acc : WireVector;
  c_weight : WireVector;
  c_we : WireVector;
  c_tag : WireVector
}.

Definition below (o : MACouts) : Column :=
  {| c_acc := o_acc o; c_weight := o_weight o; c_we := o_weight_we o; c_tag := o_weight_tag o |}.

(** [for j in range(matrix_size)]: one row of cells, left to right.  [row]
    holds the registers of the cells of this row and [cols] the signals that
    enter them from above, one per column. *)
Fixpoint MAC_row (data_width matrix_size : nat) (row : list MACregs)
    (din switchin : WireVector) (cols : list Column)
  : result (list MACregs * list Column) :=
  match cols with
  | [] => Ok ([], [])
  | col :: cols' =>
      '(o, r') <- MAC data_width matrix_size (hd MAC_reset row) din (c_acc col) switchin
                      (c_weight col) (c_we col) (c_tag col) ;;
      '(row', out) <- MAC_row data_width matrix_size (tl row) (o_data o) (o_switch o) cols' ;;
      Ok (r' :: row', below o :: out)
  end.

(** [for i in range(matrix_size)]: the rows, top to bottom; [n] rows remain
    and [i] is the next one. *)
Fixpoint MAC_rows (data_width matrix_size : nat) (n i : nat) (rows : list (list MACregs))
    (data_in new_weights : list WireVector) (cols : list Column)
  : result (list (list MACregs) * list Column) :=
  match n with
  | O => Ok ([], cols)
  | S n' =>
      din <- index data_in i ;;
      switchin <- index new_weights i ;;
      '(row', cols') <- MAC_row data_width matrix_size (hd [] rows) din switchin cols ;;
      '(rows', out) <- MAC_rows data_width matrix_size n' (S i) (tl rows)
                          data_in new_weights cols' ;;
      Ok (row' :: rows', out)
  end.

Record MMArrayregs : Type := mkMMArrayregs {
  cells : list (list MACregs);
  programming : Z;
  progstep : Z
}.

Definition MMArray_reset (matrix_size : nat) : MMArrayregs :=
  {| cells := repeat (repeat MAC_reset matrix_size) matrix_size;
     programming := 0;
     progstep := 0 |}.

(** Width of [progstep]: [size = 1; while pow(2, size) < MATSIZE: size = size + 1]. *)
Definition progstep_size : nat := while_pow2_below MATSIZE S 1 (Z.of_nat MATSIZE).

(** [weight_arr], the rows of the tile, and [current_weights], the bytes of
    the row that [progstep] selects. *)
Definition weight_arr (data_width matrix_size : nat) (weights_in : WireVector)
  : list WireVector :=
  let rowsize := (data_width * matrix_size)%nat in
  map (fun i => slice (i * rowsize) (i * rowsize + rowsize) weights_in) (seq 0 matrix_size).

Definition current_weights (data_width matrix_size : nat) (current_weights_wire : WireVector)
  : list WireVector :=
  map (fun i => slice (i * data_width) (i * data_width + data_width) current_weights_wire)
      (seq 0 matrix_size).

(** The top of column [i]: [weights_in_top[i]], [weights_enable_top[i]],
    [weights_tag_top[i]], above the constant 0 of [data_out]. *)
Definition top_column (data_width : nat) (win programming progstep : WireVector) : Column :=
  {| c_acc := Const 0;
     c_weight := assign data_width win;
     c_we := assign 1 programming;
     c_tag := assign data_width progstep |}.

(** The top row, wired to the sequencer at the end of the source: byte [i]
    of the row of the tile that [progstep] selects, [programming] as the
    write-enable and [progstep] as the tag. *)
Definition MMArray_top (data_width matrix_size : nat) (r : MMArrayregs)
    (weights_in : WireVector) : result (list Column) :=
  let prog := Register 1 (programming r) in
  let step := Register progstep_size (progstep r) in
  current_weights_wire <- mux step (weight_arr data_width matrix_size weights_in) ;;
  Ok (map (fun win => top_column data_width win prog step)
          (current_weights data_width matrix_size current_weights_wire)).

(** The sequencer: the next values of [programming] and [progstep]. *)
Definition MMArray_sequencer (r : MMArrayregs) (weights_we : WireVector) : result (Z * Z) :=
  let prog := Register 1 (programming r) in
  let step := Register progstep_size (progstep r) in
  (* with weights_we & (~programming):             programming.next |= 1
     with programming & (progstep == MATSIZE-1):   programming.next |= 0
     with otherwise:                               pass *)
  let start := wand weights_we (wnot prog) in
  let stop := wand prog (weq step (Const (Z.of_nat MATSIZE - 1))) in
  starting <- predicate start ;;
  stopping <- predicate (wand (wnot start) stop) ;;
  let programming' :=
    if starting then next 1 (Const 1)
    else if stopping then next 1 (Const 0)
    else programming r in
  (* with programming: progstep.next |= progstep + 1
     with otherwise:   progstep.next |= Const(0) *)
  stepping <- predicate prog ;;
  let progstep' :=
    if stepping then next progstep_size (wadd step (Const 1))
    else next progstep_size (Const 0) in
  Ok (programming', progstep').

Definition MMArray (data_width matrix_size : nat) (r : MMArrayregs)
    (data_in new_weights : list WireVector) (weights_in weights_we : WireVector)
  : result (list WireVector * MMArrayregs) :=
  top <- MMArray_top data_width matrix_size r weights_in ;;
  '(cells', data_out) <- MAC_rows data_width matrix_size matrix_size 0 (cells r)
                            data_in new_weights top ;;
  '(programming', progstep') <- MMArray_sequencer r weights_we ;;
  Ok (map c_acc data_out,
      {| cells := cells'; programming := programming'; progstep := progstep' |}).

(** ** [accum] and [accumulators]: the accumulator banks *)

(** A [MemBlock] of 32-bit cells, all 0 at the start. *)
Definition MemBlock : Type := Z -> Z.

Definition mem_write (m : MemBlock) (addr data : Z) : MemBlock :=
  fun a => if a =? addr then data else m a.

Record accumregs : Type := mkaccumregs {
  mem : MemBlock;
  waddrsave : Z;
  wensave : Z;
  wclearsave : Z;
  lastsave : Z
}.

Definition accum_reset : accumregs := mkaccumregs (fun _ => 0) 0 0 0 0.

Record accumouts : Type := mkaccumouts {
  a_data_out : WireVector;
  a_waddr : WireVector;
  a_wen : WireVector;
  a_wclear : WireVector;
  a_last : WireVector
}.

Definition accum (size : nat) (r : accumregs)
    (data_in waddr wen wclear raddr lastvec : WireVector)
  : result (accumouts * accumregs) :=
  (* with wen:
       with wclear:    mem[waddr] |= data_in
       with otherwise: mem[waddr] |= (data_in + mem[waddr])[:mem.bitwidth] *)
  overwrite <- predicate (wand wen wclear) ;;
  accumulate <- predicate (wand wen (wnot wclear)) ;;
  let old := Wire 32 (mem r (value waddr)) in
  let mem' :=
    if overwrite then mem_write (mem r) (value waddr) (truncate 32 (value data_in))
    else if accumulate
         then mem_write (mem r) (value waddr)
                (truncate 32 (value (slice 0 32 (wadd data_in old))))
         else mem r in
  Ok ({| a_data_out := Wire 32 (mem r (value raddr));
         a_waddr := Wire (len waddr) (waddrsave r);
         a_wen := Wire 1 (wensave r);
         a_wclear := Wire 1 (wclearsave r);
         a_last := Wire 1 (lastsave r) |},
      {| mem := mem';
         waddrsave := next (len waddr) waddr;
         wensave := next 1 wen;
         wclearsave := next 1 wclear;
         lastsave := next 1 lastvec |}).

(** [for i, x in enumerate(datas_in)]: bank [i] takes its controls from bank
    [i - 1].  [done] is bound inside the loop only. *)
Fixpoint accumulators_loop (accsize : nat) (banks : list accumregs)
    (datas_in : list WireVector) (waddrin wein wclearin raddr lastvecin : WireVector)
  : result (list WireVector * WireVector * list accumregs) :=
  match datas_in with
  | [] => Ok ([], lastvecin, [])
  | x :: datas_in' =>
      '(o, b') <- accum accsize (hd accum_reset banks) x waddrin wein wclearin raddr lastvecin ;;
      '(accout, done, banks') <-
         accumulators_loop accsize (tl banks) datas_in'
           (a_waddr o) (a_wen o) (a_wclear o) raddr (a_last o) ;;
      Ok (a_data_out o :: accout, done, b' :: banks')
  end.

Definition accumulators (accsize : nat) (banks : list accumregs)
    (datas_in : list WireVector) (waddr we wclear raddr lastvec : WireVector)
  : result (list WireVector * WireVector * list accumregs) :=
  match datas_in with
  | [] => Raise "UnboundLocalError: local variable 'done' referenced before assignment"%string
  | _ => accumulators_loop accsize banks datas_in waddr we wclear raddr lastvec
  end.

(** ** [FIFO]: the weight prefetch queue *)

Record FIFOregs : Type := mkFIFOregs {
  state : Z;
  topbuf : list Z;
  full : Z;
  buf2 : Z;
  buf3 : Z;
  buf4 : Z;
  empty2 : Z;
  empty3 : Z;
  empty4 : Z
}.

(** Sizes computed while the queue is built. *)
Definition FIFO_totalsize (matsize : nat) : nat := (matsize * matsize)%nat.
Definition FIFO_tilesize (matsize : nat) : nat := (FIFO_totalsize matsize * 8)%nat.
Definition FIFO_ddrwidth (mem_data : WireVector) : nat := (len mem_data / 8)%nat.
(** [size = 1; while pow(2, size) < (totalsize/ddrwidth): size = size << 1] *)
Definition FIFO_size (matsize : nat) (mem_data : WireVector) : nat :=
  let chunks := (FIFO_totalsize matsize / FIFO_ddrwidth mem_data)%nat in
  while_pow2_below chunks shl1 1 (Z.of_nat chunks).
(** [len(topbuf)], that is [max(1, totalsize/ddrwidth)] *)
Definition FIFO_topbufs (matsize : nat) (mem_data : WireVector) : nat :=
  Nat.max 1 (FIFO_totalsize matsize / FIFO_ddrwidth mem_data).

Definition FIFO_reset (matsize : nat) (mem_data : WireVector) : FIFOregs :=
  {| state := 0; topbuf := repeat 0 (FIFO_topbufs matsize mem_data); full := 0;
     buf2 := 0; buf3 := 0; buf4 := 0; empty2 := 0; empty3 := 0; empty4 := 0 |}.

(** The three transfers of the block "Handle moving data between the
    buffers", as wires: the condition of each [with] of the chain once the
    earlier conditions are excluded. *)
Record FIFOmoves : Type := mkFIFOmoves {
  move_top : bool;   (* with full & empty2:    topbuf -> buf2 *)
  move_23 : bool;    (* with empty3 & ~empty2: buf2 -> buf3 *)
  move_34 : bool     (* with empty4 & ~empty3: buf3 -> buf4 *)
}.

Definition FIFO_moves (r : FIFOregs) : result FIFOmoves :=
  let c1 := wand (Wire 1 (full r)) (Wire 1 (empty2 r)) in
  let c2 := wand (Wire 1 (empty3 r)) (wnot (Wire 1 (empty2 r))) in
  let c3 := wand (Wire 1 (empty4 r)) (wnot (Wire 1 (empty3 r))) in
  m1 <- predicate c1 ;;
  m2 <- predicate (wand (wnot c1) c2) ;;
  m3 <- predicate (wand (wand (wnot c1) (wnot c2)) c3) ;;
  Ok {| move_top := m1; move_23 := m2; move_34 := m3 |}.

Definition FIFO (matsize : nat) (r : FIFOregs) (mem_data mem_valid next_tile : WireVector)
  : result (WireVector * WireVector * WireVector * FIFOregs) :=
  let tilesize := FIFO_tilesize matsize in
  let ddrwidth := FIFO_ddrwidth mem_data in
  let size := FIFO_size matsize mem_data in
  let st := Wire size (state r) in
  let tops := map (Wire (ddrwidth * 8)) (topbuf r) in
  (* with mem_valid:
       state.next |= state + 1
       for i, reg in enumerate(topbuf):
         with state == Const(i):
           reg.next <<= mem_data        (the unconditional connection) *)
  valid <- predicate mem_valid ;;
  let state' := if valid then next size (wadd st (Const 1)) else state r in
  let topbuf' := map (fun _ => next (ddrwidth * 8) mem_data) (topbuf r) in
  (* with full & empty2:    buf2.next |= concat_list(topbuf); cleartop |= 1; empty2.next |= 0
     with empty3 & ~empty2: buf3.next |= buf2; empty3.next |= 0; empty2.next |= 1
     with empty4 & ~empty3: buf4.next |= buf3; empty4.next |= 0; empty3.next |= 1 *)
  mv <- FIFO_moves r ;;
  let cleartop := Wire 1 (if move_top mv then 1 else 0) in
  (* with mem_valid & (state == Const(len(topbuf))): full.next |= 1
     with cleartop:                                  full.next |= 0 *)
  let filled := wand mem_valid (weq st (Const (Z.of_nat (FIFO_topbufs matsize mem_data)))) in
  fill <- predicate filled ;;
  clear <- predicate (wand (wnot filled) cleartop) ;;
  let full' :=
    if fill then next 1 (Const 1) else if clear then next 1 (Const 0) else full r in
  let buf2' := if move_top mv then next tilesize (concat_list tops) else buf2 r in
  let buf3' := if move_23 mv then next tilesize (Wire tilesize (buf2 r)) else buf3 r in
  let buf4' := if move_34 mv then next tilesize (Wire tilesize (buf3 r)) else buf4 r in
  let empty2' :=
    if move_top mv then next 1 (Const 0)
    else if move_23 mv then next 1 (Const 1) else empty2 r in
  let empty3' :=
    if move_23 mv then next 1 (Const 0)
    else if move_34 mv then next 1 (Const 1) else empty3 r in
  let empty4' := if move_34 mv then next 1 (Const 0) else empty4 r in
  (* ready = (~empty4) & (~next_tile) *)
  let ready := wand (wnot (Wire 1 (empty4 r))) (wnot next_tile) in
  Ok (Wire tilesize (buf4 r), ready, Wire 1 (full r),
      {| state := state'; topbuf := topbuf'; full := full';
         buf2 := buf2'; buf3 := buf3'; buf4 := buf4';
         empty2 := empty2'; empty3 := empty3'; empty4 := empty4' |}).

(** ** [systolic_setup]: the vector skew buffer and the control pipeline *)

(** [for i in range(n): a = Register(width); a.next <<= sig; sig = a]: [n]
    registers in a row behind [input]; the result is the signal after the
    last one. *)
Fixpoint delay_chain (width n : nat) (regs : list Z) (input : WireVector)
  : WireVector * list Z :=
  match n with
  | O => (input, [])
  | S n' =>
      let a := Register width (hd 0 regs) in
      let '(out, regs') := delay_chain width n' (tl regs) a in
      (out, next width input :: regs')
  end.

(** The same row of registers when every register is an output
    ([switchout]). *)
Fixpoint tap_chain (width n : nat) (regs : list Z) (input : WireVector)
  : list WireVector * list Z :=
  match n with
  | O => ([], [])
  | S n' =>
      let a := Register width (hd 0 regs) in
      let '(taps, regs') := tap_chain width n' (tl regs) a in
      (a :: taps, next width input :: regs')
  end.

Record setupregs : Type := mksetupregs {
  addrreg : Z;
  wereg : Z;
  clearreg : Z;
  donereg : Z;
  firstcolumn : list Z;          (* [topreg] is [firstcolumn[0]] *)
  switchout : list Z;
  addr_chain : list Z;           (* the registers [a], [w], [c], [d] of the loop *)
  we_chain : list Z;
  clear_chain : list Z;
  done_chain : list Z;
  diagonal : list (list Z)       (* the registers [buf] of rows 1, 2, ... *)
}.

Definition setup_reset (matsize : nat) : setupregs :=
  {| addrreg := 0; wereg := 0; clearreg := 0; donereg := 0;
     firstcolumn := repeat 0 matsize;
     switchout := repeat 0 matsize;
     addr_chain := repeat 0 matsize;
     we_chain := repeat 0 matsize;
     clear_chain := repeat 0 matsize;
     done_chain := repeat 0 matsize;
     diagonal := map (fun row => repeat 0 row) (seq 1 (matsize - 1)) |}.

(** [for row in range(1, matsize)]: row [row] passes [firstcolumn[row]]
    through [row] further registers; [n] rows remain. *)
Fixpoint diagonal_rows (n row : nat) (first : list Z) (bufs : list (list Z))
  : list WireVector * list (list Z) :=
  match n with
  | O => ([], [])
  | S n' =>
      let left := Register DATWIDTH (nth row first 0) in
      let '(last, regs') := delay_chain DATWIDTH row (hd [] bufs) left in
      let '(lasts, bufs') := diagonal_rows n' (S row) first (tl bufs) in
      (last :: lasts, regs' :: bufs')
  end.

Record setupouts : Type := mksetupouts {
  s_lastcolumn : list WireVector;
  s_switchout : list WireVector;
  s_addrout : WireVector;
  s_weout : WireVector;
  s_clearout : WireVector;
  s_doneout : WireVector
}.

Definition systolic_setup (matsize : nat) (r : setupregs)
    (vec_in waddr valid clearbit lastvec switch : WireVector)
  : result (setupouts * setupregs) :=
  match matsize with
  | O => Raise "IndexError: list assignment index out of range"%string
  | S _ =>
      let addr := Register (len waddr) (addrreg r) in
      let we := Register 1 (wereg r) in
      let clear := Register 1 (clearreg r) in
      let topreg := Register DATWIDTH (hd 0 (firstcolumn r)) in
      let '(switches, switchout') := tap_chain 1 matsize (switchout r) switch in
      (* addrout = addrreg; weout = wereg; clearout = clearreg; doneout = lastvec *)
      let '(addrout, addr_chain') := delay_chain (len waddr) matsize (addr_chain r) addr in
      let '(weout, we_chain') := delay_chain 1 matsize (we_chain r) we in
      let '(clearout, clear_chain') := delay_chain 1 matsize (clear_chain r) clear in
      let '(doneout, done_chain') := delay_chain 1 matsize (done_chain r) lastvec in
      let '(lasts, diagonal') :=
        diagonal_rows (matsize - 1) 1 (firstcolumn r) (diagonal r) in
      let datain :=
        map (fun i => slice (i * DATWIDTH) (i * DATWIDTH + DATWIDTH) vec_in)
            (seq 0 matsize) in
      Ok ({| s_lastcolumn := topreg :: lasts;
             s_switchout := switches;
             s_addrout := addrout;
             s_weout := weout;
             s_clearout := clearout;
             s_doneout := doneout |},
          {| addrreg := next (len waddr) waddr;
             wereg := next 1 valid;
             clearreg := next 1 clearbit;
             donereg := next 1 lastvec;
             firstcolumn := map (next DATWIDTH) datain;
             switchout := switchout';
             addr_chain := addr_chain';
             we_chain := we_chain';
             clear_chain := clear_chain';
             done_chain := done_chain';
             diagonal := diagonal' |})
  end.

(** ** [MMU]: the tile controller and the whole matrix unit *)

Record MMUregs : Type := mkMMUregs {
  weights_wait : Z;
  weights_count : Z;
  startup : Z;
  fifo : FIFOregs;
  setup : setupregs;
  array : MMArrayregs;
  banks : list accumregs
}.

(** [logn1] and [logn], the widths of [weights_wait] and [weights_count]:
    [logn = 1; while pow(2, logn) < bound: logn = logn << 1]. *)
Definition MMU_logn1 (matrix_size : nat) : nat :=
  while_pow2_below (S matrix_size) shl1 1 (Z.of_nat matrix_size + 1).
Definition MMU_logn (matrix_size : nat) : nat :=
  while_pow2_below matrix_size shl1 1 (Z.of_nat matrix_size).

Definition MMU_reset (matrix_size : nat) (ddr_data : WireVector) : MMUregs :=
  {| weights_wait := 0; weights_count := 0; startup := 0;
     fifo := FIFO_reset matrix_size ddr_data;
     setup := setup_reset matrix_size;
     array := MMArray_reset matrix_size;
     banks := repeat accum_reset matrix_size |}.

(** The outputs [accout] and [done], and the wires of the controller:
    [rtl_assert]'s condition, [weights_we], [done_programming] and the
    queue's [tile_ready]. *)
Record MMUwires : Type := mkMMUwires {
  accout : list WireVector;
  done : WireVector;
  assertion : WireVector;
  weights_we : WireVector;
  done_programming : WireVector;
  tile_ready : WireVector
}.

(** The controller of lines 384-405: the next values of the two counters and
    the two wires it drives. *)
Definition MMU_control (matrix_size : nat) (wait count start : Z)
    (switch_weights tile_ready : WireVector)
  : result (Z * Z * WireVector * WireVector) :=
  let logn1 := MMU_logn1 matrix_size in
  let logn := MMU_logn matrix_size in
  let weights_wait := Register logn1 wait in
  let weights_count := Register logn count in
  let totalwait := Const (Z.of_nat matrix_size + 1) in
  (* with startup == 0:               weights_wait.next |= totalwait
     with switch_weights:             weights_wait.next |= 1
     with weights_wait != totalwait:  weights_wait.next |= weights_wait + 1
     with weights_count != 0:         weights_wait.next |= 0
     with otherwise:                  pass *)
  let c1 := weq (Register 1 start) (Const 0) in
  let c2 := switch_weights in
  let c3 := wne weights_wait totalwait in
  let c4 := wne weights_count (Const 0) in
  p1 <- predicate c1 ;;
  p2 <- predicate (wand (wnot c1) c2) ;;
  p3 <- predicate (wand (wand (wnot c1) (wnot c2)) c3) ;;
  p4 <- predicate (wand (wand (wand (wnot c1) (wnot c2)) (wnot c3)) c4) ;;
  let wait' :=
    if p1 then next logn1 totalwait
    else if p2 then next logn1 (Const 1)
    else if p3 then next logn1 (wadd weights_wait (Const 1))
    else if p4 then next logn1 (Const 0)
    else wait in
  (* with (weights_wait == totalwait) & tile_ready:  weights_count.next |= 1
     with weights_count == Const(matrix_size):       done_programming |= 1
                                                     weights_count.next |= 0
     with otherwise:                                 weights_count.next |= weights_count + 1
                                                     weights_we |= 1 *)
  let d1 := wand (weq weights_wait totalwait) tile_ready in
  let d2 := weq weights_count (Const (Z.of_nat matrix_size)) in
  q1 <- predicate d1 ;;
  q2 <- predicate (wand (wnot d1) d2) ;;
  q3 <- predicate (wand (wnot d1) (wnot d2)) ;;
  let count' :=
    if q1 then next logn (Const 1)
    else if q2 then next logn (Const 0)
    else if q3 then next logn (wadd weights_count (Const 1))
    else count in
  Ok (wait', count',
      Wire 1 (if q3 then 1 else 0),
      Wire 1 (if q2 then 1 else 0)).

(** One cycle of the matrix unit.  The wire [done_programming] is declared
    before the queue is built, enters the queue as [next_tile], and is driven
    by the controller from the queue's [ready], which the queue computes from
    [next_tile]: the wire lies on a combinational path that leads back to
    itself.  The parameter [done_programming_in] is the value on that wire,
    and the cycle of the circuit is the one in which the value the controller
    drives ([done_programming] of the result) is that value. *)
Definition MMU (data_width matrix_size accum_size : nat) (r : MMUregs)
    (vector_in accum_raddr accum_waddr vec_valid accum_overwrite lastvec
     switch_weights ddr_data ddr_valid : WireVector)
    (done_programming_in : WireVector)
  : result (MMUwires * MMUregs) :=
  (* rtl_assert(~(switch_weights & (weights_wait != 0)), ...) *)
  let asserted :=
    wnot (wand switch_weights
               (wne (Register (MMU_logn1 matrix_size) (weights_wait r)) (Const 0))) in
  '(weights_tile, ready, _, fifo') <-
     FIFO matrix_size (fifo r) ddr_data ddr_valid done_programming_in ;;
  '(so, setup') <-
     systolic_setup matrix_size (setup r) vector_in accum_waddr vec_valid
       accum_overwrite lastvec switch_weights ;;
  '(wait', count', we, dp) <-
     MMU_control matrix_size (weights_wait r) (weights_count r) (startup r)
       switch_weights ready ;;
  '(mouts, array') <-
     MMArray data_width matrix_size (array r) (s_lastcolumn so) (s_switchout so)
       weights_tile we ;;
  '(accs, don, banks') <-
     accumulators accum_size (banks r) mouts (s_addrout so) (s_weout so)
       (s_clearout so) accum_raddr (s_doneout so) ;;
  Ok ({| accout := accs; done := don; assertion := asserted;
         weights_we := we; done_programming := dp; tile_ready := ready |},
      {| weights_wait := wait'; weights_count := count';
         startup := next 1 (Const 1);
         fifo := fifo'; setup := setup'; array := array'; banks := banks' |}).

(** ** The unit as [testall] builds it, and its simulation *)

(** The values on the inputs of [MMU] in one cycle; [testall] declares them
    [MATSIZE] activations of [DATWIDTH] bits, a 12-bit read address, an 8-bit
    write address, a 512-bit memory burst and one-bit controls. *)
Record MMUinputs : Type := mkMMUinputs {
  vector_in : Z;
  accum_raddr : Z;
  accum_waddr : Z;
  vec_valid : Z;
  accum_overwrite : Z;
  lastvec : Z;
  switch_weights : Z;
  ddr_data : Z;
  ddr_valid : Z
}.

Definition idle : MMUinputs := mkMMUinputs 0 0 0 0 0 0 0 0 0.

Definition memdata (v : Z) : WireVector := Wire (64 * 8) v.

Definition testall_reset : MMUregs := MMU_reset MATSIZE (memdata 0).

Definition testall_MMU (r : MMUregs) (i : MMUinputs) (done_programming_in : WireVector)
  : result (MMUwires * MMUregs) :=
  MMU DATWIDTH MATSIZE ACCSIZE r
    (Wire (MATSIZE * DATWIDTH) (vector_in i)) (Wire 12 (accum_raddr i))
    (Wire 8 (accum_waddr i)) (Wire 1 (vec_valid i)) (Wire 1 (accum_overwrite i))
    (Wire 1 (lastvec i)) (Wire 1 (switch_weights i)) (memdata (ddr_data i))
    (Wire 1 (ddr_valid i)) done_programming_in.

(** A cycle of the circuit: the wire [done_programming] carries the bit that
    the controller drives onto it. *)
Definition settled (r : MMUregs) (i : MMUinputs) (w : MMUwires) (r' : MMUregs) : Prop :=
  exists b : Z, (b = 0 \/ b = 1) /\
    testall_MMU r i (Wire 1 b) = Ok (w, r') /\ value (done_programming w) = b.

Definition rtl_assert_message : string :=
  "Weights are not ready to switch. Need a minimum of 4 + 1 cycles since last switch.".

(** The states the unit can be in after reset. *)
Inductive reachable : MMUregs -> Prop :=
| reachable_reset : reachable testall_reset
| reachable_cycle (r : MMUregs) (i : MMUinputs) (w : MMUwires) (r' : MMUregs) :
    reachable r -> testall_MMU r i (Wire 1 0) = Ok (w, r') -> reachable r'.

(** [sim.step]: one cycle; the simulation raises the exception of
    [rtl_assert] in the cycle in which its condition is 0.  The 2-bit
    [weights_count] never equals [Const(matrix_size)], so [done_programming]
    is 0 in every cycle (lemmas [settled_cycle] and [reachable_settled]). *)
Definition step (r : MMUregs) (i : MMUinputs) : result (MMUwires * MMUregs) :=
  '(w, r') <- testall_MMU r i (Wire 1 0) ;;
  if is_set (assertion w) then Ok (w, r') else Raise rtl_assert_message.

(** The same cycle when the assertion is not checked. *)
Definition cycle (r : MMUregs) (i : MMUinputs) : result (MMUwires * MMUregs) :=
  testall_MMU r i (Wire 1 0).

Fixpoint run (r : MMUregs) (inputs : list MMUinputs) : result MMUregs :=
  match inputs with
  | [] => Ok r
  | i :: inputs' => '(_, r') <- step r i ;; run r' inputs'
  end.

(** The capture as the specification words it: the byte goes to the buffer
    that the stored selector [current_buffer_reg] leaves unused. *)
Definition captured_by_stored_selector (r r' : MACregs) (weight_in : WireVector) : Prop :=
  inactive_buffer (current_buffer_reg r) r' = value weight_in.


(** ** The sub-units as [testall] builds them *)

(** The queue inside [testall]'s unit: one cycle with the values of
    [mem_data], [mem_valid] and [next_tile], and a run over several cycles. *)
Definition testall_FIFO (r : FIFOregs) (i : Z * Z * Z)
  : result (WireVector * WireVector * WireVector * FIFOregs) :=
  let '(d, v, n) := i in FIFO MATSIZE r (memdata d) (Wire 1 v) (Wire 1 n).

Fixpoint FIFO_run (r : FIFOregs) (inputs : list (Z * Z * Z)) : result FIFOregs :=
  match inputs with
  | [] => Ok r
  | i :: inputs' => '(_, _, _, r') <- testall_FIFO r i ;; FIFO_run r' inputs'
  end.

Definition testall_FIFO_reset : FIFOregs := FIFO_reset MATSIZE (memdata 0).


(** The queue after the two valid bursts 5 and 6 that follow reset: the
    second burst has raised [full], the staging register holds 6, and no
    stage has taken a tile. *)
Definition FIFO_top_filled : FIFOregs :=
  {| state := 0; topbuf := [6]; full := 1;
     buf2 := 0; buf3 := 0; buf4 := 0;
     empty2 := 0; empty3 := 0; empty4 := 0 |}.

(** A queue in which no stage is marked empty and no stage holds a tile: the
    state of the queue at reset. *)
Definition FIFO_stuck (r : FIFOregs) : Prop :=
  empty2 r = 0 /\ empty3 r = 0 /\ empty4 r = 0 /\
  buf2 r = 0 /\ buf3 r = 0 /\ buf4 r = 0 /\ bit (full r).

(** The skew buffer inside a unit of size [matsize]: one cycle, and a run. *)
Definition setup_cycle (matsize : nat) (r : setupregs) (i : MMUinputs)
  : result (setupouts * setupregs) :=
  systolic_setup matsize r
    (Wire (matsize * DATWIDTH) (vector_in i)) (Wire 8 (accum_waddr i))
    (Wire 1 (vec_valid i)) (Wire 1 (accum_overwrite i)) (Wire 1 (lastvec i))
    (Wire 1 (switch_weights i)).

Fixpoint setup_run (matsize : nat) (r : setupregs) (inputs : list MMUinputs)
  : result setupregs :=
  match inputs with
  | [] => Ok r
  | i :: inputs' => '(_, r') <- setup_cycle matsize r i ;; setup_run matsize r' inputs'
  end.

(** ** A unit whose cells hold the weights of [testall] *)

(** [weights] and the first of [vectors], lines 500 and 502 of the source. *)
Definition weights : list (list Z) :=
  [[2; 2; 8; 6]; [10; 6; 2; 8]; [10; 9; 8; 1]; [1; 3; 6; 4]].
Definition vector0 : list Z := [12; 7; 2; 6].

(** [concat_list] of bytes: the first byte is the least significant. *)
Fixpoint pack (bytes : list Z) : Z :=
  match bytes with
  | [] => 0
  | b :: bytes' => b + Z.shiftl (pack bytes') 8
  end.

(** The cells once the tile [w] is distributed and switched in: row [s] of
    the tile is the active weight of the cells of row [MATSIZE - 1 - s]. *)
Definition loaded_cells (w : list (list Z)) : list (list MACregs) :=
  map (map (fun b => mkMACregs b 0 0 0 0 0 0 0 0)) (rev w).

Definition loaded (w : list (list Z)) : MMUregs :=
  {| weights_wait := weights_wait testall_reset;
     weights_count := weights_count testall_reset;
     startup := startup testall_reset;
     fifo := fifo testall_reset;
     setup := setup testall_reset;
     array := {| cells := loaded_cells w; programming := 0; progstep := 0 |};
     banks := banks testall_reset |}.

(** The inputs of a cycle that presents a vector, and of a cycle that only
    reads the accumulators. *)
Definition present (v : list Z) (waddr overwrite last : Z) : MMUinputs :=
  {| vector_in := pack v; accum_raddr := 0; accum_waddr := waddr; vec_valid := 1;
     accum_overwrite := overwrite; lastvec := last; switch_weights := 0;
     ddr_data := 0; ddr_valid := 0 |}.
Definition read (raddr : Z) : MMUinputs :=
  {| vector_in := 0; accum_raddr := raddr; accum_waddr := 0; vec_valid := 0;
     accum_overwrite := 0; lastvec := 0; switch_weights := 0;
     ddr_data := 0; ddr_valid := 0 |}.

(** What the accumulator banks receive in a cycle: the controls that leave
    the skew buffer and the sums that leave the array. *)
Definition bank_inputs (r : MMUregs) : result (setupouts * list WireVector) :=
  '(so, _) <- setup_cycle MATSIZE (setup r) idle ;;
  '(mouts, _) <- MMArray DATWIDTH MATSIZE (array r) (s_lastcolumn so) (s_switchout so)
                   (Wire 128 0) (Wire 1 0) ;;
  Ok (so, mouts).

(** ** The array on its own *)

(** The values on the inputs of [MMArray] in one cycle: the activations and
    the switch bits of the rows, the tile at the head of the queue and the
    write-enable of the controller. *)
Record arrayinputs : Type := mkarrayinputs {
  a_data : list Z;
  a_switch : list Z;
  a_tile : Z;
  a_we : Z
}.

Definition array_cycle (r : MMArrayregs) (i : arrayinputs)
  : result (list WireVector * MMArrayregs) :=
  MMArray DATWIDTH MATSIZE r (map (Wire DATWIDTH) (a_data i)) (map (Wire 1) (a_switch i))
    (Wire (MATSIZE * MATSIZE * DATWIDTH) (a_tile i)) (Wire 1 (a_we i)).

Fixpoint array_run (r : MMArrayregs) (inputs : list arrayinputs) : result MMArrayregs :=
  match inputs with
  | [] => Ok r
  | i :: inputs' => '(_, r') <- array_cycle r i ;; array_run r' inputs'
  end.

(** The registers of the cell in row [i] and column [j]. *)
Definition cell (r : MMArrayregs) (i j : nat) : MACregs :=
  nth j (nth i (cells r) []) MAC_reset.

(** Row [s] of a tile as the sequencer cuts it out of the tile wire, and the
    byte of that row for column [j]. *)
Definition tile_row (tile : Z) (s : nat) : WireVector :=
  nth s (weight_arr DATWIDTH MATSIZE (Wire (MATSIZE * MATSIZE * DATWIDTH) tile)) (Wire 0 0).
Definition tile_byte (tile : Z) (s j : nat) : Z :=
  value (nth j (current_weights DATWIDTH MATSIZE (tile_row tile s)) (Wire 0 0)).

(** The selector and the switch pipeline register of every cell hold a bit. *)
Definition array_wf (r : MMArrayregs) : Prop :=
  forall i j, (i < MATSIZE)%nat -> (j < MATSIZE)%nat ->
    bit (current_buffer_reg (cell r i j)) /\ bit (switch_reg (cell r i j)).

(** Inputs the array can be given: an activation and a switch bit for each
    of the [MATSIZE] rows. *)
Definition arrayinputs_wf (i : arrayinputs) : Prop :=
  List.length (a_data i) = MATSIZE /\ List.length (a_switch i) = MATSIZE
  /\ Forall bit (a_switch i).

(** The weight, write-enable and tag that enter the cell of row [k] in column
    [j]: the top of the column for row 0, the pipeline registers of the cell
    above for the other rows. *)
Definition Column_none : Column := mkColumn (Wire 0 0) (Wire 0 0) (Wire 0 0) (Wire 0 0).

Definition column_in (top : list Column) (rows : list (list MACregs)) (k j : nat) : Column :=
  let t := nth j top Column_none in
  match k with
  | O => t
  | S k' =>
      let above := nth j (nth k' rows []) MAC_reset in
      {| c_acc := Wire 0 0;
         c_weight := Wire (len (c_weight t)) (weight_reg above);
         c_we := Wire 1 (weight_we_reg above);
         c_tag := Wire (len (c_tag t)) (weight_tag_reg above) |}
  end.

Definition column_ok (data_width : nat) (c : Column) : Prop :=
  len (c_weight c) = data_width /\ len (c_we c) = 1%nat.

(** A cell's registers after a cycle in which the weight path of [c] enters
    it, for some activation, partial sum and switch bit. *)
Definition cell_cycle (c : Column) (r r' : MACregs) : Prop :=
  exists din acc sw,
    len sw = 1%nat /\ bit (value sw) /\
    r' = MAC_next r din acc sw (c_weight c) (c_we c) (c_tag c).

(** The state of the weight path [k] cycles into the streaming of a tile:
    the value that entered the top of column [j] at step [s] has crossed
    [k - s] rows, sits in the pipeline registers of row [i = k - 1 - s], and
    carries the tag [k], that is [s] plus the rows crossed. *)
Definition streaming (tile : Z) (k : nat) (r : MMArrayregs) : Prop :=
  forall i j, (i < k)%nat -> (i < MATSIZE)%nat -> (j < MATSIZE)%nat ->
    weight_we_reg (cell r i j) = 1 /\
    weight_tag_reg (cell r i j) = Z.of_nat k /\
    weight_reg (cell r i j) = tile_byte tile (k - 1 - i) j.

(** Every cell holds, in the buffer that its selector register leaves
    unused, the byte of the tile for its position: row [s] of the tile is in
    the cells of row [MATSIZE - 1 - s]. *)
Definition distributed (tile : Z) (r : MMArrayregs) : Prop :=
  forall i j, (i < MATSIZE)%nat -> (j < MATSIZE)%nat ->
    inactive_buffer (current_buffer_reg (cell r i j)) (cell r i j)
    = tile_byte tile (MATSIZE - 1 - i) j.

(** A tile given as a matrix: [MATSIZE] rows of [MATSIZE] bytes.  On the
    tile wire the rows follow one another from the least significant bit,
    and so do the bytes of a row: the tile of [M] is [pack (List.concat M)]. *)
Definition tile_matrix (M : list (list Z)) : Prop :=
  List.length M = MATSIZE /\
  Forall (fun row => List.length row = MATSIZE /\ Forall (fun b => 0 <= b < 2 ^ 8) row) M.

(** The byte of row [s] and column [j] of the matrix. *)
Definition entry (M : list (list Z)) (s j : nat) : Z := nth j (nth s M []) 0.

(** The array with all cells at reset and the sequencer at the start of a
    programming pass, and the cycles of a pass that streams [tile] while
    nothing else is presented. *)
Definition MMArray_programming : MMArrayregs :=
  {| cells := cells (MMArray_reset MATSIZE); programming := 1; progstep := 0 |}.
Definition stream (tile : Z) : arrayinputs :=
  {| a_data := [0; 0; 0; 0]; a_switch := [0; 0; 0; 0]; a_tile := tile; a_we := 0 |}.

(** A cycle in which the only input set is [switch_weights]. *)
Definition request_switch : MMUinputs :=
  {| vector_in := 0; accum_raddr := 0; accum_waddr := 0; vec_valid := 0;
     accum_overwrite := 0; lastvec := 0; switch_weights := 1;
     ddr_data := 0; ddr_valid := 0 |}.

(** The controller over a run: in each cycle the two counters, and the wires
    [weights_we] and [done_programming]. *)
Fixpoint controller_trace (r : MMUregs) (inputs : list MMUinputs)
  : result (list (Z * Z * Z * Z)) :=
  match inputs with
  | [] => Ok []
  | i :: inputs' =>
      '(w, r') <- step r i ;;
      rest <- controller_trace r' inputs' ;;
      Ok ((weights_wait r, weights_count r,
           value (weights_we w), value (done_programming w)) :: rest)
  end.

(** The cycle of [testall] that sends "the swap signal with first row of
    input", after the 15 cycles it spends before (no memory block, 10 waits,
    the write pulse and [MATSIZE] waits). *)
Definition swap_first_vector : MMUinputs :=
  {| vector_in := pack vector0; accum_raddr := 0; accum_waddr := 0; vec_valid := 1;
     accum_overwrite := 0; lastvec := 0; switch_weights := 1;
     ddr_data := 0; ddr_valid := 0 |}.

(** The one-bit registers on the switch path hold a bit: the selector and
    switch registers of the cells, and the switch registers of the skew
    buffer. *)
Definition MMU_wf (r : MMUregs) : Prop :=
  array_wf (array r) /\ forall k, bit (nth k (switchout (setup r)) 0).

(** ** The signals that enter a cell of the array *)

(** The activation and the switch bit that reach the cell of column [j] in a
    row: the row's own inputs at column 0, the pipeline registers of the cell
    to the left elsewhere. *)
Definition left_data (din : WireVector) (row : list MACregs) (j : nat) : WireVector :=
  match j with
  | O => din
  | S j' => Wire (len din) (data_reg (nth j' row MAC_reset))
  end.
Definition left_switch (switchin : WireVector) (row : list MACregs) (j : nat) : WireVector :=
  match j with
  | O => switchin
  | S j' => Wire 1 (switch_reg (nth j' row MAC_reset))
  end.

(** The signals that enter row [k] in column [j] from above, when [i0] is the
    index of the first row in [data_in] and [new_weights]: the top of the
    column for row 0, what the cell above returns for the other rows. *)
Fixpoint column_at (top : list Column) (rows : list (list MACregs))
    (data_in new_weights : list WireVector) (i0 k j : nat) : Column :=
  match k with
  | O => nth j top Column_none
  | S k' =>
      let c := column_at top rows data_in new_weights i0 k' j in
      let row := nth k' rows [] in
      below (MAC_outs (nth j row MAC_reset)
               (left_data (nth (i0 + k') data_in (Wire 0 0)) row j) (c_acc c)
               (left_switch (nth (i0 + k') new_weights (Wire 0 0)) row j)
               (c_weight c) (c_tag c))
  end.

(** The width of [out] in a cell with 8-bit operands, by the width of the
    partial sum that enters it, and the width of the partial sum that enters
    row [k]: 1 bit at the top, where it is [Const(0)]. *)
Definition out_width (acc_len : nat) : nat :=
  let l := S (Nat.max 16 acc_len) in if (32 <? l)%nat then 32%nat else l.
Fixpoint acc_width (k : nat) : nat :=
  match k with
  | O => 1%nat
  | S k' => out_width (acc_width k')
  end.

(** The values that enter the cell of row [i] and column [j] in a cycle of
    the array on its own: the activation and the switch bit from the left,
    the partial sum from above, and the weight the cell multiplies by, which
    its selector picks after the switch bit is applied. *)
Definition data_at (r : MMArrayregs) (inp : arrayinputs) (i j : nat) : Z :=
  match j with
  | O => nth i (a_data inp) 0
  | S j' => data_reg (cell r i j')
  end.
Definition switch_at (r : MMArrayregs) (inp : arrayinputs) (i j : nat) : Z :=
  match j with
  | O => nth i (a_switch inp) 0
  | S j' => switch_reg (cell r i j')
  end.
Definition acc_at (r : MMArrayregs) (i j : nat) : Z :=
  match i with
  | O => 0
  | S i' => acc_reg (cell r i' j)
  end.
Definition weight_at (r : MMArrayregs) (inp : arrayinputs) (i j : nat) : Z :=
  active_buffer (Z.lxor (current_buffer_reg (cell r i j)) (switch_at r inp i j)) (cell r i j).

(** ** The array as a matrix-vector multiplier *)

(** The weights are stationary: no switch bit is on its way through the
    array, and the cell of row [i] and column [j] multiplies by [W i j]. *)
Definition stationary (W : nat -> nat -> Z) (r : MMArrayregs) : Prop :=
  forall i j, (i < MATSIZE)%nat -> (j < MATSIZE)%nat ->
    switch_reg (cell r i j) = 0 /\
    active_buffer (current_buffer_reg (cell r i j)) (cell r i j) = W i j.

(** A cycle without a switch request: [MATSIZE] activation bytes and no
    switch bit; the tile input and the write-enable are free. *)
Definition quiet (inp : arrayinputs) : Prop :=
  List.length (a_data inp) = MATSIZE /\ a_switch inp = repeat 0 MATSIZE
  /\ Forall (fun x => 0 <= x < 2 ^ 8) (a_data inp).

Definition arrayinputs_none : arrayinputs := mkarrayinputs [] [] 0 0.

(** [W 0 j * a 0 + ... + W (n - 1) j * a (n - 1)] *)
Fixpoint partial_sum (W : nat -> nat -> Z) (a : nat -> Z) (j n : nat) : Z :=
  match n with
  | O => 0
  | S n' => partial_sum W a j n' + W n' j * a n'
  end.

(** ** The accumulator banks on their own *)

(** The bank that [accum] builds when its controls are one bit wide: the
    next value of its memory and registers. *)
Definition accum_next (r : accumregs) (data_in waddr wen wclear lastvec : WireVector)
  : accumregs :=
  let old := Wire 32 (mem r (value waddr)) in
  {| mem :=
       if is_set (wand wen wclear)
       then mem_write (mem r) (value waddr) (truncate 32 (value data_in))
       else if is_set (wand wen (wnot wclear))
            then mem_write (mem r) (value waddr)
                   (truncate 32 (value (slice 0 32 (wadd data_in old))))
            else mem r;
     waddrsave := next (len waddr) waddr;
     wensave := next 1 wen;
     wclearsave := next 1 wclear;
     lastsave := next 1 lastvec |}.

(** The controls of a bank: write address, write-enable, overwrite flag and
    last-vector flag. *)
Record bankctl : Type := mkbankctl {
  b_waddr : WireVector;
  b_wen : WireVector;
  b_wclear : WireVector;
  b_last : WireVector
}.

(** The controls that bank [k] receives: those of the unit for bank 0, the
    registers of bank [k - 1] for the others. *)
Definition bank_ctl (bs : list accumregs) (ctl : bankctl) (k : nat) : bankctl :=
  match k with
  | O => ctl
  | S k' =>
      let b := nth k' bs accum_reset in
      {| b_waddr := Wire (len (b_waddr ctl)) (waddrsave b);
         b_wen := Wire 1 (wensave b);
         b_wclear := Wire 1 (wclearsave b);
         b_last := Wire 1 (lastsave b) |}
  end.

(** The values on the inputs of [accumulators] in one cycle, with the widths
    they have in the unit: a 20-bit sum per bank, an 8-bit write address, a
    12-bit read address and one-bit controls. *)
Record bankinputs : Type := mkbankinputs {
  k_data : list Z;
  k_waddr : Z;
  k_we : Z;
  k_clear : Z;
  k_raddr : Z;
  k_last : Z
}.

Definition banks_cycle (bs : list accumregs) (i : bankinputs)
  : result (list WireVector * WireVector * list accumregs) :=
  accumulators ACCSIZE bs (map (Wire 20) (k_data i)) (Wire 8 (k_waddr i))
    (Wire 1 (k_we i)) (Wire 1 (k_clear i)) (Wire 12 (k_raddr i)) (Wire 1 (k_last i)).

Fixpoint banks_run (bs : list accumregs) (inputs : list bankinputs)
  : result (list accumregs) :=
  match inputs with
  | [] => Ok bs
  | i :: inputs' => '(_, _, bs') <- banks_cycle bs i ;; banks_run bs' inputs'
  end.
(** * Properties of the primitives *)

Lemma truncate_small (n : nat) (x : Z) :
  0 <= x < 2 ^ Z.of_nat n -> truncate n x = x.
Proof. intros H. unfold truncate. now apply Z.mod_small. Qed.

Lemma truncate_range (n : nat) (x : Z) : 0 <= truncate n x < 2 ^ Z.of_nat n.
Proof. unfold truncate. apply Z.mod_pos_bound. apply Z.pow_pos_nonneg; lia. Qed.

Lemma truncate_idem (n : nat) (x : Z) : truncate n (truncate n x) = truncate n x.
Proof. apply truncate_small, truncate_range. Qed.

Lemma truncate_bit (x : Z) : x = 0 \/ x = 1 -> truncate 1 x = x.
Proof. intros [-> | ->]; reflexivity. Qed.

Lemma wf_bit (w : WireVector) :
  bitwidth w = 1%nat -> wf w -> value w = 0 \/ value w = 1.
Proof. unfold wf. intros ->. change (2 ^ Z.of_nat 1) with 2. lia. Qed.

Lemma predicate_bit (p : WireVector) : len p = 1%nat -> predicate p = Ok (is_set p).
Proof. unfold predicate. now intros ->. Qed.

(** The width loops end by their own test: with [bound] rounds allowed the
    loop of the source is never cut short, for an increment as for a shift. *)
Lemma while_pow2_below_exit (grow : nat -> nat) (fuel size : nat) (bound : Z) :
  (forall n, (1 <= n)%nat -> (n < grow n)%nat) ->
  (1 <= size)%nat -> bound <= Z.of_nat fuel + Z.of_nat size ->
  bound <= 2 ^ Z.of_nat (while_pow2_below fuel grow size bound).
Proof.
  intros Hgrow. revert size. induction fuel as [ | fuel IH]; intros size Hsize Hbound.
  - cbn [while_pow2_below].
    pose proof (Z.pow_gt_lin_r 2 (Z.of_nat size)). lia.
  - cbn [while_pow2_below].
    destruct (Z.ltb_spec (2 ^ Z.of_nat size) bound) as [Hlt | Hge]; [ | lia ].
    pose proof (Hgrow size Hsize). apply IH; lia.
Qed.

Lemma widths_by_exit :
  Z.of_nat MATSIZE <= 2 ^ Z.of_nat progstep_size
  /\ Z.of_nat MATSIZE + 1 <= 2 ^ Z.of_nat (MMU_logn1 MATSIZE)
  /\ Z.of_nat MATSIZE <= 2 ^ Z.of_nat (MMU_logn MATSIZE)
  /\ Z.of_nat (FIFO_totalsize MATSIZE / FIFO_ddrwidth (Wire (64 * 8) 0))
     <= 2 ^ Z.of_nat (FIFO_size MATSIZE (Wire (64 * 8) 0)).
Proof.
  repeat split; apply while_pow2_below_exit;
    try (intros n Hn; unfold shl1; lia); cbn; lia.
Qed.

(** * Properties of [MAC] *)

(** The two width checks pass when the operands are [data_width] wide and the
    controls one bit wide; the cell is then built. *)
Lemma MAC_built (data_width matrix_size : nat) (r : MACregs)
    (data_in acc_in switchw weight_in weight_we weight_tag : WireVector) :
  len weight_in = len data_in \/ len data_in = data_width ->
  len switchw = 1%nat -> len weight_we = 1%nat ->
  MAC data_width matrix_size r data_in acc_in switchw weight_in weight_we weight_tag
  = Ok (MAC_outs r data_in acc_in switchw weight_in weight_tag,
        MAC_next r data_in acc_in switchw weight_in weight_we weight_tag).
Proof.
  intros Hdata Hswitch Hwe. unfold MAC.
  replace (negb (len weight_in =? len data_in)%nat && negb (len data_in =? data_width)%nat)
    with false
    by (symmetry; destruct Hdata as [-> | ->]; rewrite Nat.eqb_refl;
        cbn; auto using andb_false_r).
  replace (len switchw =? len weight_we)%nat with true
    by (symmetry; apply Nat.eqb_eq; congruence).
  cbn [negb andb].
  rewrite (predicate_bit switchw Hswitch). cbn [bind].
  rewrite !predicate_bit; [reflexivity | |];
    unfold len, wand, wnot, weq in *; cbn [bitwidth]; now rewrite Hwe.
Qed.

(** The first check raises exactly when the weight is not as wide as the
    activation and the activation not as wide as [data_width]. *)
Lemma MAC_raises_on_data_width (data_width matrix_size : nat) (r : MACregs)
    (data_in acc_in switchw weight_in weight_we weight_tag : WireVector) :
  MAC data_width matrix_size r data_in acc_in switchw weight_in weight_we weight_tag
  = Raise "Expected 8-bit value in MAC."%string
  <-> len weight_in <> len data_in /\ len data_in <> data_width.
Proof.
  unfold MAC.
  destruct (Nat.eqb_spec (len weight_in) (len data_in)) as [E1 | E1];
    destruct (Nat.eqb_spec (len data_in) data_width) as [E2 | E2]; cbn [negb andb];
    try (split; [intros _; now split | reflexivity]).
  all: split; [ | intros [? ?]; congruence ].
  all: destruct (negb (len switchw =? len weight_we)%nat && negb (len weight_we =? 1)%nat);
    [ discriminate | ].
  all: unfold predicate; repeat (match goal with
         | |- context [if ?c then _ else _] => destruct c
         end; cbn [bind]); discriminate.
Qed.

(** C9, evaluated where the check misses: a cell whose activation and weight
    are both 16 bits wide under a configured data width of 8 is built without
    an exception, with 16-bit weight buffers and pipeline registers. *)
Theorem C9_MAC_width_mismatch_is_built :
  MAC DATWIDTH MATSIZE MAC_reset
      (Wire 16 300) (Wire 32 0) (Wire 1 0) (Wire 16 300) (Wire 1 1) (Wire 8 3)
  = Ok (MAC_outs MAC_reset (Wire 16 300) (Wire 32 0) (Wire 1 0) (Wire 16 300) (Wire 8 3),
        {| wbuf1 := 0; wbuf2 := 300; current_buffer_reg := 0; data_reg := 300;
           switch_reg := 0; acc_reg := 0; weight_reg := 300; weight_we_reg := 1;
           weight_tag_reg := 4 |})
  /\ len (o_weight (MAC_outs MAC_reset (Wire 16 300) (Wire 32 0) (Wire 1 0)
                             (Wire 16 300) (Wire 8 3))) = 16%nat.
Proof. split; reflexivity. Qed.

(** The same check also lets through a weight narrower than the activation. *)
Lemma MAC_narrow_weight_is_built :
  exists o r',
    MAC DATWIDTH MATSIZE MAC_reset
        (Wire 8 0) (Wire 32 0) (Wire 1 0) (Wire 4 0) (Wire 1 0) (Wire 8 0)
    = Ok (o, r') /\ len (o_weight o) = 4%nat.
Proof. eexists _, _. split; reflexivity. Qed.

Lemma MAC_out_32 (r : MACregs) (data_in acc_in switchw weight_in : WireVector) :
  len data_in = DATWIDTH -> len weight_in = DATWIDTH -> len acc_in = 32%nat ->
  MAC_out r data_in acc_in switchw weight_in
  = Wire 32 ((value (MAC_weight r switchw weight_in) * value data_in + value acc_in)
             mod 2 ^ 32).
Proof.
  unfold MAC_out, MAC_weight, select, wmul, wadd, slice, len, Register, DATWIDTH.
  cbn [bitwidth value]. intros -> -> ->. cbn [Nat.max Nat.add Nat.ltb Nat.leb Nat.min Nat.sub].
  unfold truncate. rewrite Z.shiftr_0_r. reflexivity.
Qed.

(** C8: with 8-bit operands and a 32-bit partial sum the product is exact and
    below [2^16], and the sum that the cell registers is
    [(w * a + A) mod 2^32]; the cell raises nothing. *)
Theorem C8_MAC_wraps_mod_2_32 (r : MACregs)
    (data_in acc_in switchw weight_in weight_we weight_tag : WireVector) :
  len data_in = DATWIDTH -> len weight_in = DATWIDTH -> len acc_in = 32%nat ->
  len switchw = 1%nat -> len weight_we = 1%nat ->
  wf data_in -> 0 <= wbuf1 r < 2 ^ 8 -> 0 <= wbuf2 r < 2 ^ 8 ->
  let w := value (MAC_weight r switchw weight_in) in
  let a := value data_in in
  let A := value acc_in in
  (w = active_buffer (value (MAC_current_buffer r switchw)) r) /\
  len (wmul (MAC_weight r switchw weight_in) data_in) = 16%nat /\
  0 <= w * a < 2 ^ 16 /\
  MAC_out r data_in acc_in switchw weight_in = Wire 32 ((w * a + A) mod 2 ^ 32) /\
  exists o r',
    MAC DATWIDTH MATSIZE r data_in acc_in switchw weight_in weight_we weight_tag
    = Ok (o, r') /\
    acc_reg r' = (w * a + A) mod 2 ^ 32 /\ len (o_acc o) = 32%nat.
Proof.
  intros Hd Hw Ha Hs He Hwf H1 H2 w a A.
  assert (Hout := MAC_out_32 r data_in acc_in switchw weight_in Hd Hw Ha).
  fold w a A in Hout.
  assert (Hact : w = active_buffer (value (MAC_current_buffer r switchw)) r).
  { unfold w, MAC_weight, select, active_buffer, PyRTL.Register. cbn [value].
    now destruct (_ =? 0). }
  assert (Hrange : 0 <= w < 2 ^ 8).
  { rewrite Hact. unfold active_buffer. now destruct (_ =? 0). }
  assert (Harange : 0 <= a < 2 ^ 8).
  { unfold a. red in Hwf. unfold len in Hd. rewrite Hd in Hwf. exact Hwf. }
  assert (Hprod : len (wmul (MAC_weight r switchw weight_in) data_in) = 16%nat).
  { unfold wmul, MAC_weight, select, PyRTL.Register, len in *. cbn [bitwidth].
    rewrite Hd, Hw. reflexivity. }
  repeat split; try assumption; try nia.
  eexists _, _. split.
  - apply MAC_built; [right; assumption | assumption | assumption].
  - unfold MAC_next, MAC_outs. cbn [acc_reg o_acc]. rewrite Hout.
    split; [ | reflexivity ].
    unfold next, len. cbn [bitwidth value]. apply truncate_small.
    apply Z.mod_pos_bound. lia.
Qed.

Lemma C8_MAC_wraps_mod_2_32_witness :
  exists o r',
    MAC DATWIDTH MATSIZE (mkMACregs 255 0 0 0 0 0 0 0 0)
        (Wire 8 255) (Wire 32 4294967295) (Wire 1 0) (Wire 8 0) (Wire 1 0) (Wire 8 0)
    = Ok (o, r') /\
    acc_reg r' = (255 * 255 + 4294967295) mod 2 ^ 32 /\ len (o_acc o) = 32%nat.
Proof.
  refine (proj2 (proj2 (proj2 (proj2
    (C8_MAC_wraps_mod_2_32 (mkMACregs 255 0 0 0 0 0 0 0 0)
       (Wire 8 255) (Wire 32 4294967295) (Wire 1 0) (Wire 8 0) (Wire 1 0) (Wire 8 0)
       _ _ _ _ _ _ _ _))))); try reflexivity; unfold wf; cbn; lia.
Defined.

(** In the array the partial sum that enters a cell is narrower than 32
    bits (1 bit at the top row, one bit more than the wider operand after
    each row), and the sum is then registered without truncation: it is
    still [(w * a + A) mod 2^32], because it is below [2^32]. *)
Lemma MAC_sum_any_width (r : MACregs) (data_in acc_in switchw weight_in : WireVector) :
  len data_in = DATWIDTH -> len weight_in = DATWIDTH -> (len acc_in <= 32)%nat ->
  wf data_in -> wf acc_in -> 0 <= wbuf1 r < 2 ^ 8 -> 0 <= wbuf2 r < 2 ^ 8 ->
  let out := MAC_out r data_in acc_in switchw weight_in in
  next (len out) out
  = (value (MAC_weight r switchw weight_in) * value data_in + value acc_in) mod 2 ^ 32.
Proof.
  intros Hd Hw Ha Hwfd Hwfa H1 H2.
  destruct (Nat.eq_dec (len acc_in) 32) as [E32 | N32].
  - cbv zeta. rewrite (MAC_out_32 r data_in acc_in switchw weight_in Hd Hw E32).
    unfold next, len. cbn [bitwidth value]. apply truncate_small.
    apply Z.mod_pos_bound. lia.
  - cbv zeta. unfold MAC_out.
    set (w := value (MAC_weight r switchw weight_in)).
    assert (Hrange : 0 <= w < 2 ^ 8).
    { unfold w, MAC_weight, select, PyRTL.Register. cbn [value]. now destruct (_ =? 0). }
    assert (Hlen : len (wmul (MAC_weight r switchw weight_in) data_in) = 16%nat).
    { unfold wmul, MAC_weight, select, PyRTL.Register, len in *. cbn [bitwidth].
      rewrite Hd, Hw. reflexivity. }
    unfold len in *.
    replace (bitwidth (wadd (wmul (MAC_weight r switchw weight_in) data_in) acc_in))
      with (S (Nat.max 16 (bitwidth acc_in)))
      by (unfold wadd; cbn [bitwidth]; now rewrite Hlen).
    destruct (Nat.ltb_spec 32 (S (Nat.max 16 (bitwidth acc_in)))) as [Hgt | Hle]; [lia | ].
    replace (bitwidth (wadd (wmul (MAC_weight r switchw weight_in) data_in) acc_in))
      with (S (Nat.max 16 (bitwidth acc_in)))
      by (unfold wadd; cbn [bitwidth]; now rewrite Hlen).
    unfold next, wadd, wmul. cbn [bitwidth value]. fold w.
    red in Hwfd, Hwfa. rewrite Hd in Hwfd. change (2 ^ Z.of_nat DATWIDTH) with (2 ^ 8) in Hwfd.
    set (m := Nat.max 16 (bitwidth acc_in)) in *.
    assert (Hm16 : 2 ^ 16 <= 2 ^ Z.of_nat m) by (apply Z.pow_le_mono_r; lia).
    assert (Hma : 2 ^ Z.of_nat (bitwidth acc_in) <= 2 ^ Z.of_nat m)
      by (apply Z.pow_le_mono_r; lia).
    assert (Hm32 : 2 ^ Z.of_nat (S m) <= 2 ^ 32) by (apply Z.pow_le_mono_r; lia).
    assert (HS : 2 ^ Z.of_nat (S m) = 2 * 2 ^ Z.of_nat m)
      by (rewrite Nat2Z.inj_succ, Z.pow_succ_r; lia).
    assert (Hsum : 0 <= w * value data_in + value acc_in < 2 ^ Z.of_nat (S m)) by nia.
    rewrite truncate_small by assumption.
    symmetry. apply Z.mod_small. lia.
Qed.

(** The capture condition [weight_we & (weight_tag == Const(MATSIZE-1))] of a
    one-bit [weight_we]. *)
Lemma MAC_store_spec (weight_we weight_tag : WireVector) :
  value weight_we = 0 \/ value weight_we = 1 ->
  MAC_store weight_we weight_tag
  = (value weight_we =? 1) && (value weight_tag =? Z.of_nat MATSIZE - 1).
Proof.
  unfold MAC_store, is_set, wand, weq, Const. cbn [value].
  intros [-> | ->]; destruct (value weight_tag =? _); reflexivity.
Qed.

(** What a cycle does to the two weight buffers, by the selector
    [current_buffer = current_buffer_reg ^ switchw]. *)
Lemma MAC_next_buffers (r : MACregs)
    (data_in acc_in switchw weight_in weight_we weight_tag : WireVector) :
  value weight_we = 0 \/ value weight_we = 1 ->
  let r' := MAC_next r data_in acc_in switchw weight_in weight_we weight_tag in
  let selector := value (MAC_current_buffer r switchw) in
  if (value weight_we =? 1) && (value weight_tag =? Z.of_nat MATSIZE - 1)
  then inactive_buffer selector r' = truncate (len weight_in) (value weight_in)
       /\ active_buffer selector r' = active_buffer selector r
  else wbuf1 r' = wbuf1 r /\ wbuf2 r' = wbuf2 r.
Proof.
  intros Hwe. cbv zeta.
  unfold MAC_next, inactive_buffer, active_buffer, is_set, wand, wnot, weq, next, Const.
  cbn [wbuf1 wbuf2 value bitwidth].
  destruct Hwe as [-> | ->]; destruct (value weight_tag =? _);
    destruct (value (MAC_current_buffer r switchw) =? 0); cbn; auto.
Qed.

(** The stored selector after the cycle is this cycle's [current_buffer]. *)
Lemma MAC_next_selector (r : MACregs)
    (data_in acc_in switchw weight_in weight_we weight_tag : WireVector) :
  current_buffer_reg r = 0 \/ current_buffer_reg r = 1 ->
  value switchw = 0 \/ value switchw = 1 ->
  current_buffer_reg (MAC_next r data_in acc_in switchw weight_in weight_we weight_tag)
  = value (MAC_current_buffer r switchw).
Proof.
  unfold MAC_next, MAC_current_buffer, is_set, wxor, wnot, next, PyRTL.Register.
  cbn [current_buffer_reg value bitwidth].
  intros [-> | ->] [-> | ->]; reflexivity.
Qed.

(** C5 as the code has it: when [weight_we] is set and the tag is
    [MATSIZE - 1], the weight byte goes to the buffer that the selector leaves
    unused after it is combined with this cycle's switch request, and the
    buffer that this cycle multiplies by is untouched; in every other cycle
    both buffers keep their values. *)
Theorem C5_weight_capture (r : MACregs)
    (data_in acc_in switchw weight_in weight_we weight_tag : WireVector) :
  len data_in = DATWIDTH -> len weight_in = DATWIDTH ->
  len switchw = 1%nat -> len weight_we = 1%nat ->
  wf weight_in -> wf weight_we ->
  exists o r',
    MAC DATWIDTH MATSIZE r data_in acc_in switchw weight_in weight_we weight_tag
    = Ok (o, r') /\
    let selector := value (MAC_current_buffer r switchw) in
    if (value weight_we =? 1) && (value weight_tag =? Z.of_nat MATSIZE - 1)
    then inactive_buffer selector r' = value weight_in
         /\ active_buffer selector r' = active_buffer selector r
    else wbuf1 r' = wbuf1 r /\ wbuf2 r' = wbuf2 r.
Proof.
  intros Hd Hw Hs He Hwf Hwe. eexists _, _. split.
  - apply MAC_built; [right; assumption | assumption | assumption].
  - pose proof (MAC_next_buffers r data_in acc_in switchw weight_in weight_we weight_tag
                  (wf_bit _ He Hwe)) as H.
    cbv zeta in *. unfold len in H. rewrite (truncate_small _ _ Hwf) in H. exact H.
Qed.

Lemma C5_weight_capture_witness :
  exists o r',
    MAC DATWIDTH MATSIZE MAC_reset
        (Wire 8 0) (Wire 32 0) (Wire 1 1) (Wire 8 7) (Wire 1 1) (Wire 8 3)
    = Ok (o, r') /\
    inactive_buffer 1 r' = 7 /\ active_buffer 1 r' = active_buffer 1 MAC_reset.
Proof.
  apply (C5_weight_capture MAC_reset
           (Wire 8 0) (Wire 32 0) (Wire 1 1) (Wire 8 7) (Wire 1 1) (Wire 8 3));
    try reflexivity; unfold wf; cbn; lia.
Defined.

(** With the selector register at 0 and a switch request in the same cycle as
    a capture, the byte 7 lands in [wbuf1], the buffer the stored selector
    calls active, and [wbuf2] keeps its 0. *)
Lemma C5_counterexample :
  exists o r',
    MAC DATWIDTH MATSIZE MAC_reset
        (Wire 8 0) (Wire 32 0) (Wire 1 1) (Wire 8 7) (Wire 1 1) (Wire 8 3)
    = Ok (o, r') /\
    wbuf1 r' = 7 /\ wbuf2 r' = 0 /\
    ~ captured_by_stored_selector MAC_reset r' (Wire 8 7).
Proof.
  eexists _, _. split; [reflexivity | ].
  repeat split. unfold captured_by_stored_selector. cbn. discriminate.
Qed.

(** * Properties of [FIFO] *)

Lemma FIFO_sizes :
  FIFO_size MATSIZE (memdata 0) = 1%nat /\ FIFO_topbufs MATSIZE (memdata 0) = 1%nat
  /\ FIFO_tilesize MATSIZE = 128%nat /\ FIFO_ddrwidth (memdata 0) = 64%nat.
Proof. repeat split. Qed.

(** The transfers of a cycle, by the flags of the queue. *)
Lemma FIFO_moves_spec (r : FIFOregs) :
  bit (full r) -> bit (empty2 r) -> bit (empty3 r) -> bit (empty4 r) ->
  FIFO_moves r =
  Ok {| move_top := (full r =? 1) && (empty2 r =? 1);
        move_23 := negb ((full r =? 1) && (empty2 r =? 1))
                   && ((empty3 r =? 1) && (empty2 r =? 0));
        move_34 := negb ((full r =? 1) && (empty2 r =? 1))
                   && negb ((empty3 r =? 1) && (empty2 r =? 0))
                   && ((empty4 r =? 1) && (empty3 r =? 0)) |}.
Proof.
  unfold FIFO_moves.
  intros [-> | ->] [-> | ->] [-> | ->] [-> | ->]; reflexivity.
Qed.

(** At most one of the three transfers takes place in a cycle. *)
Lemma FIFO_one_move (r : FIFOregs) (mv : FIFOmoves) :
  bit (full r) -> bit (empty2 r) -> bit (empty3 r) -> bit (empty4 r) ->
  FIFO_moves r = Ok mv ->
  (move_top mv = true -> move_23 mv = false /\ move_34 mv = false)
  /\ (move_23 mv = true -> move_34 mv = false).
Proof.
  intros Hf H2 H3 H4. rewrite FIFO_moves_spec by assumption.
  intros [= <-]. cbn [move_top move_23 move_34].
  destruct ((full r =? 1) && (empty2 r =? 1)), ((empty3 r =? 1) && (empty2 r =? 0));
    cbn; intuition congruence.
Qed.



Lemma FIFO_stuck_moves (r : FIFOregs) :
  FIFO_stuck r ->
  FIFO_moves r = Ok {| move_top := false; move_23 := false; move_34 := false |}.
Proof.
  intros (H2 & H3 & H4 & _ & _ & _ & Hf).
  rewrite FIFO_moves_spec; unfold bit; rewrite ?H2, ?H3, ?H4; auto.
  now rewrite andb_false_r.
Qed.

(** One cycle of a stuck queue: the tile output is 0, the queue stays stuck,
    the staging register takes [mem_data], the counter counts the valid
    pulses, and [full] is set by a valid pulse that finds the counter at 1. *)
Lemma FIFO_stuck_step (r : FIFOregs) (d v n : Z) :
  FIFO_stuck r ->
  exists ready fl r',
    testall_FIFO r (d, v, n) = Ok (Wire 128 0, ready, fl, r')
    /\ (n = 0 -> ready = Wire 1 1)
    /\ FIFO_stuck r'
    /\ topbuf r' = map (fun _ => truncate 512 d) (topbuf r)
    /\ state r' = (if v =? 0 then state r else truncate 1 (state r + 1))
    /\ full r' = (if negb (Z.land v (if state r =? 1 then 1 else 0) =? 0)
                  then 1 else full r).
Proof.
  intros Hs. pose proof (FIFO_stuck_moves r Hs) as Hm.
  destruct Hs as (H2 & H3 & H4 & B2 & B3 & B4 & Hf).
  unfold testall_FIFO, FIFO. rewrite Hm.
  rewrite !predicate_bit by reflexivity. cbn [bind move_top move_23 move_34].
  do 3 eexists. split; [ | split; [ | split; [ | split; [ | split ] ] ] ].
  - rewrite B4. reflexivity.
  - intros ->. rewrite H4. reflexivity.
  - unfold FIFO_stuck. cbn [empty2 empty3 empty4 buf2 buf3 buf4 full].
    repeat match goal with |- _ /\ _ => split end; try assumption; try reflexivity.
    unfold bit.
    destruct (is_set _); [right; reflexivity | ].
    destruct (is_set _); [left; reflexivity | assumption].
  - reflexivity.
  - cbn [state]. unfold is_set. cbn [value]. now destruct (v =? 0).
  - cbn [full]. unfold is_set, wand, wnot, weq, Const. cbn [value bitwidth].
    change (Z.of_nat (FIFO_topbufs MATSIZE (memdata d))) with 1.
    destruct (negb _); [reflexivity | ].
    now rewrite Z.land_0_r.
Qed.

Lemma FIFO_reset_stuck : FIFO_stuck testall_FIFO_reset.
Proof. unfold FIFO_stuck, bit. cbn. auto 10. Qed.

Lemma FIFO_run_stuck (inputs : list (Z * Z * Z)) (r : FIFOregs) :
  FIFO_stuck r -> exists r', FIFO_run r inputs = Ok r' /\ FIFO_stuck r'.
Proof.
  revert r. induction inputs as [ | [[d v] n] inputs IH]; intros r Hs.
  - exists r. now split.
  - destruct (FIFO_stuck_step r d v n Hs) as (ready & fl & r1 & E & _ & Hs1 & _).
    cbn [FIFO_run]. rewrite E. cbn [bind]. now apply IH.
Qed.

Lemma FIFO_run_app (xs ys : list (Z * Z * Z)) (r : FIFOregs) :
  FIFO_run r (xs ++ ys) = (r' <- FIFO_run r xs ;; FIFO_run r' ys).
Proof.
  revert r. induction xs as [ | x xs IH]; intros r; [reflexivity | ].
  cbn [FIFO_run app]. destruct (testall_FIFO r x) as [[[[t rd] fl] r1] | msg];
    cbn [bind]; [apply IH | reflexivity].
Qed.

(** C10: at reset the three stage-empty flags are 0.  After reset and any
    number of cycles, whatever the memory has sent in them (nothing, in
    particular), a cycle in which [next_tile] is 0 has [ready] at 1 and the
    all-zero tile at the head of the queue. *)
Theorem C10_ready_without_a_tile (history : list (Z * Z * Z)) (mem_data mem_valid : Z) :
  empty2 testall_FIFO_reset = 0 /\ empty3 testall_FIFO_reset = 0
  /\ empty4 testall_FIFO_reset = 0 /\
  exists r fl r',
    FIFO_run testall_FIFO_reset history = Ok r /\
    testall_FIFO r (mem_data, mem_valid, 0) = Ok (Wire 128 0, Wire 1 1, fl, r').
Proof.
  repeat (split; [reflexivity | ]).
  destruct (FIFO_run_stuck history _ FIFO_reset_stuck) as (r & Hr & Hs).
  destruct (FIFO_stuck_step r mem_data mem_valid 0 Hs) as (ready & fl & r' & E & Hrd & _).
  exists r, fl, r'. split; [assumption | ]. now rewrite <- (Hrd eq_refl).
Qed.

Lemma FIFO_idle_after_burst (n : nat) (r : FIFOregs) :
  FIFO_stuck r -> state r = 1 -> full r = 0 -> topbuf r = [0] ->
  exists r', FIFO_run r (repeat (0, 0, 0) n) = Ok r'
             /\ state r' = 1 /\ full r' = 0 /\ topbuf r' = [0].
Proof.
  revert r. induction n as [ | n IH]; intros r Hs H1 H2 H3.
  - exists r. cbn. auto.
  - destruct (FIFO_stuck_step r 0 0 0 Hs) as (rd & fl & r1 & E & _ & Hs1 & Ht & Hst & Hf).
    cbn [repeat FIFO_run]. rewrite E. cbn [bind]. apply IH; try assumption.
    + now rewrite Hst.
    + rewrite Hf, H2. reflexivity.
    + rewrite Ht, H3. reflexivity.
Qed.

Lemma FIFO_after_burst (d : Z) (n : nat) :
  exists r,
    FIFO_run testall_FIFO_reset ((d, 1, 0) :: repeat (0, 0, 0) n) = Ok r /\
    state r = 1 /\ full r = 0 /\
    topbuf r = [match n with O => truncate 512 d | S _ => 0 end].
Proof.
  destruct (FIFO_stuck_step testall_FIFO_reset d 1 0 FIFO_reset_stuck)
    as (rd & fl & r1 & E & _ & Hs1 & Ht & Hst & Hf).
  cbn [FIFO_run]. rewrite E. cbn [bind].
  cbn in Ht, Hst, Hf.
  destruct n as [ | n].
  - exists r1. cbn. auto.
  - destruct (FIFO_stuck_step r1 0 0 0 Hs1) as (rd2 & fl2 & r2 & E2 & _ & Hs2 & Ht2 & Hst2 & Hf2).
    cbn [repeat FIFO_run]. rewrite E2. cbn [bind].
    rewrite Ht in Ht2. rewrite Hst in Hst2. rewrite Hf, Hst in Hf2. cbn in Ht2, Hst2, Hf2.
    destruct (FIFO_idle_after_burst n r2 Hs2 Hst2 Hf2 Ht2) as (r & Hr & ? & ? & ?).
    exists r. auto.
Qed.

(** C7, evaluated where the flag is missed.  One burst carries a whole tile
    (16 bytes against the 64 of a burst), and the queue has one staging
    register.  After a single valid burst [d] and [n] idle cycles the counter
    is at 1, the staging-register count, and [full] is still 0. *)
Theorem C7_full_stays_low_after_a_tile (d : Z) (n : nat) :
  exists r,
    FIFO_run testall_FIFO_reset ((d, 1, 0) :: repeat (0, 0, 0) n) = Ok r /\
    state r = Z.of_nat (FIFO_topbufs MATSIZE (memdata d)) /\
    full r = 0.
Proof.
  destruct (FIFO_after_burst d n) as (r & E & Hs & Hf & _).
  exists r. auto.
Qed.

(** The staging register is connected with [<<=]: it holds the burst in the
    cycle after the valid pulse and whatever [mem_data] carried last in every
    later cycle. *)
Lemma FIFO_staging_overwritten (d : Z) (n : nat) :
  exists r,
    FIFO_run testall_FIFO_reset ((d, 1, 0) :: repeat (0, 0, 0) (S n)) = Ok r /\
    topbuf r = [0].
Proof.
  destruct (FIFO_after_burst d (S n)) as (r & E & _ & _ & Ht).
  exists r. auto.
Qed.

(** A second valid burst, which finds the counter at 1, does set [full]; the
    counter wraps to 0. *)
Lemma FIFO_full_on_second_burst (d d' : Z) :
  exists r,
    FIFO_run testall_FIFO_reset [(d, 1, 0); (d', 1, 0)] = Ok r /\
    state r = 0 /\ full r = 1.
Proof. eexists. split; [reflexivity | ]. split; reflexivity. Qed.

(** [FIFO_top_filled] is the state two valid bursts after reset. *)
Lemma FIFO_top_filled_reachable :
  FIFO_run testall_FIFO_reset [(5, 1, 0); (6, 1, 0)] = Ok FIFO_top_filled.
Proof. reflexivity. Qed.




(** * Properties of [systolic_setup] *)

Lemma nth_tl {A : Type} (k : nat) (l : list A) (d : A) : nth k (tl l) d = nth (S k) l d.
Proof. destruct l; [now destruct k | reflexivity]. Qed.

Lemma hd_nth {A : Type} (l : list A) (d : A) : hd d l = nth 0 l d.
Proof. now destruct l. Qed.

Section DelayChain.

Variable width : nat.

(** After a cycle the first register of a chain holds the input and every
    other register what the register before it held. *)
Lemma delay_chain_regs (n : nat) (regs : list Z) (input : WireVector) (k : nat) :
  nth k (snd (delay_chain width n regs input)) 0
  = if (k <? n)%nat
    then match k with
         | O => truncate width (value input)
         | S k' => truncate width (nth k' regs 0)
         end
    else 0.
Proof.
  revert regs input k. induction n as [ | n IH]; intros regs input k.
  - cbn. now destruct k.
  - cbn [delay_chain].
    destruct (delay_chain width n (tl regs) (PyRTL.Register width (hd 0 regs)))
      as [out regs'] eqn:E.
    cbn [snd]. destruct k as [ | k]; [reflexivity | ].
    cbn [nth]. specialize (IH (tl regs) (PyRTL.Register width (hd 0 regs)) k).
    rewrite E in IH. cbn [snd] in IH. rewrite IH.
    change (S k <? S n)%nat with (k <? n)%nat.
    destruct (k <? n)%nat; [ | reflexivity ].
    destruct k as [ | k]; [cbn [value PyRTL.Register]; now rewrite hd_nth | ].
    now rewrite nth_tl.
Qed.

(** The output of a chain is its last register, or the input itself when the
    chain has no register. *)
Lemma delay_chain_out (n : nat) (regs : list Z) (input : WireVector) :
  fst (delay_chain width n regs input)
  = match n with
    | O => input
    | S n' => Wire width (nth n' regs 0)
    end.
Proof.
  revert regs input. induction n as [ | n IH]; intros regs input; [reflexivity | ].
  cbn [delay_chain].
  destruct (delay_chain width n (tl regs) (PyRTL.Register width (hd 0 regs)))
    as [out regs'] eqn:E.
  cbn [fst]. specialize (IH (tl regs) (PyRTL.Register width (hd 0 regs))).
  rewrite E in IH. cbn [fst] in IH. rewrite IH.
  destruct n as [ | n]; [unfold PyRTL.Register; now rewrite hd_nth | ].
  now rewrite nth_tl.
Qed.

End DelayChain.

(** The control signals of one cycle of the skew buffer and of the
    registers behind them. *)
Lemma setup_cycle_control (m : nat) (r : setupregs) (i : MMUinputs) :
  exists o r',
    setup_cycle (S m) r i = Ok (o, r') /\
    s_addrout o = Wire 8 (nth m (addr_chain r) 0) /\
    s_weout o = Wire 1 (nth m (we_chain r) 0) /\
    s_clearout o = Wire 1 (nth m (clear_chain r) 0) /\
    s_doneout o = Wire 1 (nth m (done_chain r) 0) /\
    addrreg r' = truncate 8 (accum_waddr i) /\
    wereg r' = truncate 1 (vec_valid i) /\
    clearreg r' = truncate 1 (accum_overwrite i) /\
    addr_chain r' = snd (delay_chain 8 (S m) (addr_chain r) (Wire 8 (addrreg r))) /\
    we_chain r' = snd (delay_chain 1 (S m) (we_chain r) (Wire 1 (wereg r))) /\
    clear_chain r' = snd (delay_chain 1 (S m) (clear_chain r) (Wire 1 (clearreg r))) /\
    done_chain r' = snd (delay_chain 1 (S m) (done_chain r) (Wire 1 (lastvec i))).
Proof.
  unfold setup_cycle, systolic_setup.
  destruct (tap_chain 1 (S m) (switchout r) _) as [switches switchout'].
  cbn [len bitwidth].
  pose proof (delay_chain_out 8 (S m) (addr_chain r) (PyRTL.Register 8 (addrreg r))) as Ha.
  pose proof (delay_chain_out 1 (S m) (we_chain r) (PyRTL.Register 1 (wereg r))) as Hw.
  pose proof (delay_chain_out 1 (S m) (clear_chain r) (PyRTL.Register 1 (clearreg r))) as Hc.
  pose proof (delay_chain_out 1 (S m) (done_chain r) (Wire 1 (lastvec i))) as Hd.
  destruct (delay_chain 8 (S m) (addr_chain r) _) as [addrout addr_chain'].
  destruct (delay_chain 1 (S m) (we_chain r) _) as [weout we_chain'].
  destruct (delay_chain 1 (S m) (clear_chain r) _) as [clearout clear_chain'].
  destruct (delay_chain 1 (S m) (done_chain r) _) as [doneout done_chain'].
  destruct (diagonal_rows _ _ _ _) as [lasts diagonal'].
  cbn [fst snd] in *. subst.
  eexists _, _. split; [reflexivity | ]. cbn. repeat split.
Qed.

Lemma setup_run_app (matsize : nat) (xs ys : list MMUinputs) (r : setupregs) :
  setup_run matsize r (xs ++ ys) = (r' <- setup_run matsize r xs ;; setup_run matsize r' ys).
Proof.
  revert r. induction xs as [ | x xs IH]; intros r; [reflexivity | ].
  cbn [setup_run app]. destruct (setup_cycle matsize r x) as [[o r1] | msg];
    cbn [bind]; [apply IH | reflexivity].
Qed.

Lemma setup_run_total (m : nat) (inputs : list MMUinputs) (r : setupregs) :
  exists r', setup_run (S m) r inputs = Ok r'.
Proof.
  revert r. induction inputs as [ | x inputs IH]; intros r; [now exists r | ].
  destruct (setup_cycle_control m r x) as (o & r1 & E & _).
  cbn [setup_run]. rewrite E. cbn [bind]. apply IH.
Qed.

Section ChainTravel.

Variables (m width : nat).
(** A chain of the skew buffer, and the value that enters it in a cycle. *)
Variable chain : setupregs -> list Z.
Variable source : setupregs -> MMUinputs -> Z.
Hypothesis chain_cycle : forall r i o r',
  setup_cycle (S m) r i = Ok (o, r') ->
  chain r' = snd (delay_chain width (S m) (chain r) (Wire width (source r i))).

(** What enters the chain in a cycle is in its register number [k] after
    [k] further cycles. *)
Lemma chain_travels (post : list MMUinputs) (r r' : setupregs) (x : MMUinputs) :
  (List.length post < S m)%nat ->
  setup_run (S m) r (x :: post) = Ok r' ->
  nth (List.length post) (chain r') 0 = truncate width (source r x).
Proof.
  revert r'. induction post as [ | y post IH] using rev_ind; intros r' Hlen Hrun.
  - cbn [setup_run] in Hrun.
    destruct (setup_cycle (S m) r x) as [[o r1] | msg] eqn:E; [ | discriminate ].
    cbn [bind] in Hrun. injection Hrun as <-.
    rewrite (chain_cycle _ _ _ _ E), delay_chain_regs. reflexivity.
  - rewrite length_app in *. cbn [List.length] in *.
    change (x :: post ++ [y]) with ((x :: post) ++ [y]) in Hrun.
    rewrite setup_run_app in Hrun.
    destruct (setup_run (S m) r (x :: post)) as [r1 | msg] eqn:E1; [ | discriminate ].
    cbn [bind setup_run] in Hrun.
    destruct (setup_cycle (S m) r1 y) as [[o r2] | msg] eqn:E2; [ | discriminate ].
    cbn [bind] in Hrun. injection Hrun as <-.
    rewrite (chain_cycle _ _ _ _ E2), delay_chain_regs.
    replace (List.length post + 1)%nat with (S (List.length post)) in * by lia.
    destruct (Nat.ltb_spec (S (List.length post)) (S m)) as [_ | Hge]; [ | lia ].
    rewrite (IH r1); [ apply truncate_idem | lia | reflexivity ].
Qed.

End ChainTravel.

Ltac by_setup_cycle_control m r i H :=
  let E := fresh "E" in
  destruct (setup_cycle_control m r i)
    as (? & ? & E & _ & _ & _ & _ & _ & _ & _ & ? & ? & ? & ?);
  rewrite E in H; injection H as <- <-; assumption.

Lemma addr_chain_cycle (m : nat) (r : setupregs) (i : MMUinputs) o r' :
  setup_cycle (S m) r i = Ok (o, r') ->
  addr_chain r' = snd (delay_chain 8 (S m) (addr_chain r) (Wire 8 (addrreg r))).
Proof. intros H. by_setup_cycle_control m r i H. Qed.

Lemma we_chain_cycle (m : nat) (r : setupregs) (i : MMUinputs) o r' :
  setup_cycle (S m) r i = Ok (o, r') ->
  we_chain r' = snd (delay_chain 1 (S m) (we_chain r) (Wire 1 (wereg r))).
Proof. intros H. by_setup_cycle_control m r i H. Qed.

Lemma clear_chain_cycle (m : nat) (r : setupregs) (i : MMUinputs) o r' :
  setup_cycle (S m) r i = Ok (o, r') ->
  clear_chain r' = snd (delay_chain 1 (S m) (clear_chain r) (Wire 1 (clearreg r))).
Proof. intros H. by_setup_cycle_control m r i H. Qed.

Lemma done_chain_cycle (m : nat) (r : setupregs) (i : MMUinputs) o r' :
  setup_cycle (S m) r i = Ok (o, r') ->
  done_chain r' = snd (delay_chain 1 (S m) (done_chain r) (Wire 1 (lastvec i))).
Proof. intros H. by_setup_cycle_control m r i H. Qed.

(** The depth of the control pipeline.  The address, the write-enable and the
    overwrite flag of the vector accepted in a cycle are the outputs
    [addrout], [weout] and [clearout] of the skew buffer [matsize + 1] cycles
    later: one register in front of a chain of [matsize]. *)
Lemma setup_control_depth (m : nat) (r0 : setupregs) (pre post : list MMUinputs)
    (x i : MMUinputs) :
  List.length post = S m ->
  exists r o r',
    setup_run (S m) r0 (pre ++ x :: post) = Ok r /\
    setup_cycle (S m) r i = Ok (o, r') /\
    s_addrout o = Wire 8 (truncate 8 (accum_waddr x)) /\
    s_weout o = Wire 1 (truncate 1 (vec_valid x)) /\
    s_clearout o = Wire 1 (truncate 1 (accum_overwrite x)).
Proof.
  intros Hlen. destruct post as [ | y post]; [discriminate | ].
  injection Hlen as Hlen.
  destruct (setup_run_total m pre r0) as (ra & Ea).
  destruct (setup_cycle_control m ra x) as (ox & rb & Ex & _ & _ & _ & _ & Xa & Xw & Xc & _).
  destruct (setup_run_total m (y :: post) rb) as (r & Er).
  destruct (setup_cycle_control m r i) as (o & r' & Ei & Oa & Ow & Oc & _).
  exists r, o, r'. split; [ | split; [exact Ei | ] ].
  - rewrite setup_run_app, Ea. cbn [bind setup_run]. rewrite Ex. cbn [bind]. exact Er.
  - rewrite Oa, Ow, Oc, <- Hlen.
    rewrite (chain_travels m 8 addr_chain (fun r _ => addrreg r) (addr_chain_cycle m)
               post rb r y) by (lia || assumption).
    rewrite (chain_travels m 1 we_chain (fun r _ => wereg r) (we_chain_cycle m)
               post rb r y) by (lia || assumption).
    rewrite (chain_travels m 1 clear_chain (fun r _ => clearreg r) (clear_chain_cycle m)
               post rb r y) by (lia || assumption).
    rewrite Xa, Xw, Xc, !truncate_idem. auto.
Qed.

(** The last-vector flag enters its chain of [matsize] registers without a
    register in front: it is the output [doneout] of the skew buffer
    [matsize] cycles after the vector is accepted, one cycle before the
    write-enable of the same vector. *)
Lemma setup_done_depth (m : nat) (r0 : setupregs) (pre post : list MMUinputs)
    (x i : MMUinputs) :
  List.length post = m ->
  exists r o r',
    setup_run (S m) r0 (pre ++ x :: post) = Ok r /\
    setup_cycle (S m) r i = Ok (o, r') /\
    s_doneout o = Wire 1 (truncate 1 (lastvec x)).
Proof.
  intros Hlen.
  destruct (setup_run_total m pre r0) as (ra & Ea).
  destruct (setup_run_total m (x :: post) ra) as (r & Er).
  destruct (setup_cycle_control m r i) as (o & r' & Ei & _ & _ & _ & Od & _).
  exists r, o, r'. split; [ | split; [exact Ei | ] ].
  - rewrite setup_run_app, Ea. cbn [bind]. exact Er.
  - rewrite Od, <- Hlen.
    rewrite (chain_travels m 1 done_chain (fun _ i => lastvec i) (done_chain_cycle m)
               post ra r x) by (lia || assumption).
    reflexivity.
Qed.

(** * Properties of [MMArray] *)

Section Rows.

Variables data_width matrix_size : nat.

(** One row of cells: every cell is built, and takes from above the signals
    of its column. *)
Lemma MAC_row_cells (cols : list Column) :
  forall (row : list MACregs) (din switchin : WireVector),
    len din = data_width -> len switchin = 1%nat -> bit (value switchin) ->
    Forall (column_ok data_width) cols ->
    (forall j, (j < List.length cols)%nat -> bit (switch_reg (nth j row MAC_reset))) ->
    exists row' out,
      MAC_row data_width matrix_size row din switchin cols = Ok (row', out) /\
      List.length row' = List.length cols /\ List.length out = List.length cols /\
      forall j, (j < List.length cols)%nat ->
        cell_cycle (nth j cols Column_none) (nth j row MAC_reset) (nth j row' MAC_reset) /\
        c_weight (nth j out Column_none)
        = Wire (len (c_weight (nth j cols Column_none))) (weight_reg (nth j row MAC_reset)) /\
        c_we (nth j out Column_none) = Wire 1 (weight_we_reg (nth j row MAC_reset)) /\
        c_tag (nth j out Column_none)
        = Wire (len (c_tag (nth j cols Column_none))) (weight_tag_reg (nth j row MAC_reset)).
Proof.
  induction cols as [ | col cols IH]; intros row din sw Hd Hs Hb Hok Hrow.
  - exists [], []. cbn. repeat split; intros; lia.
  - inversion Hok as [ | ? ? [Hw He] Hok']; subst.
    cbn [MAC_row].
    rewrite MAC_built by (auto; right; assumption). cbn [bind].
    destruct (IH (tl row) (Wire (len din) (data_reg (hd MAC_reset row)))
                 (Wire 1 (switch_reg (hd MAC_reset row))))
      as (row' & out & E & L1 & L2 & Hcells); auto.
    + rewrite hd_nth. apply Hrow. cbn. lia.
    + intros j Hj. rewrite nth_tl. apply Hrow. cbn. lia.
    + unfold MAC_outs at 1 2. cbn [o_data o_switch]. rewrite E. cbn [bind].
      eexists _, _. split; [reflexivity | ].
      cbn [List.length]. split; [congruence | ]. split; [congruence | ].
      intros [ | j] Hj.
      * cbn [nth]. rewrite <- hd_nth. split; [ | repeat split ].
        exists din, (c_acc col), sw. auto.
      * cbn [nth]. specialize (Hcells j ltac:(lia)).
        rewrite nth_tl in Hcells. exact Hcells.
Qed.

Lemma cell_cycle_ext (c c' : Column) (r r' : MACregs) :
  c_weight c = c_weight c' -> c_we c = c_we c' -> c_tag c = c_tag c' ->
  cell_cycle c r r' -> cell_cycle c' r r'.
Proof.
  intros E1 E2 E3 (din & acc & sw & H1 & H2 & H3).
  exists din, acc, sw. rewrite <- E1, <- E2, <- E3. auto.
Qed.

Lemma index_ok {A : Type} (l : list A) (i : nat) (d : A) :
  (i < List.length l)%nat -> index l i = Ok (nth i l d).
Proof.
  intros H. unfold index. destruct (nth_error l i) as [x | ] eqn:E.
  - now rewrite (nth_error_nth _ _ _ E).
  - apply nth_error_None in E. lia.
Qed.

(** The rows of cells, top to bottom: every cell is built, and takes the
    weight path of [column_in]. *)
Lemma MAC_rows_cells (data_in new_weights : list WireVector) :
  Forall (fun w => len w = data_width) data_in ->
  Forall (fun w => len w = 1%nat /\ bit (value w)) new_weights ->
  forall (n i : nat) (rows : list (list MACregs)) (cols : list Column),
    (i + n <= List.length data_in)%nat -> (i + n <= List.length new_weights)%nat ->
    Forall (column_ok data_width) cols ->
    (forall k j, (k < n)%nat -> (j < List.length cols)%nat ->
                 bit (switch_reg (nth j (nth k rows []) MAC_reset))) ->
    exists rows' out,
      MAC_rows data_width matrix_size n i rows data_in new_weights cols = Ok (rows', out) /\
      List.length out = List.length cols /\
      forall k j, (k < n)%nat -> (j < List.length cols)%nat ->
        cell_cycle (column_in cols rows k j)
                   (nth j (nth k rows []) MAC_reset) (nth j (nth k rows' []) MAC_reset).
Proof.
  intros Hdata Hsw. induction n as [ | n IH]; intros i rows cols Hi1 Hi2 Hok Hrows.
  - exists [], cols. cbn. repeat split; intros; lia.
  - cbn [MAC_rows].
    rewrite (index_ok data_in i (Wire 0 0)) by lia.
    rewrite (index_ok new_weights i (Wire 0 0)) by lia. cbn [bind].
    assert (Hd : len (nth i data_in (Wire 0 0)) = data_width).
    { apply (proj1 (Forall_nth _ data_in) Hdata). lia. }
    assert (Hs : len (nth i new_weights (Wire 0 0)) = 1%nat
                 /\ bit (value (nth i new_weights (Wire 0 0)))).
    { apply (proj1 (Forall_nth _ new_weights) Hsw). lia. }
    destruct Hs as [Hs Hb].
    destruct (MAC_row_cells cols (hd [] rows) _ _ Hd Hs Hb Hok)
      as (row' & cols' & E & L1 & L2 & Hcells).
    { intros j Hj. rewrite hd_nth. apply Hrows; [lia | assumption]. }
    rewrite E. cbn [bind].
    assert (Hok' : Forall (column_ok data_width) cols').
    { apply Forall_nth. intros j d Hj. rewrite (nth_indep _ d Column_none Hj).
      destruct (Hcells j ltac:(lia)) as (_ & Ew & Ee & _).
      unfold column_ok. rewrite Ew, Ee. split; [ | reflexivity ].
      apply (proj1 (Forall_nth _ cols) Hok). lia. }
    destruct (IH (S i) (tl rows) cols') as (rows' & out & E' & L3 & Hrest);
      try lia; try assumption.
    { intros k j Hk Hj. rewrite nth_tl. apply Hrows; lia. }
    rewrite E'. cbn [bind]. eexists _, _. split; [reflexivity | ].
    split; [congruence | ].
    intros [ | k] j Hk Hj.
    + cbn [nth column_in]. rewrite <- hd_nth. apply Hcells, Hj.
    + cbn [nth]. specialize (Hrest k j ltac:(lia) ltac:(lia)).
      rewrite nth_tl in Hrest.
      destruct (Hcells j Hj) as (_ & Ew & Ee & Et).
      rewrite hd_nth in Ew, Ee, Et.
      revert Hrest. apply cell_cycle_ext; destruct k as [ | k]; cbn [column_in];
        rewrite ?nth_tl, ?Ew, ?Ee, ?Et; reflexivity.
Qed.

End Rows.

(** The top row of the array in a cycle: four columns that carry
    [programming] as write-enable, [progstep] as tag, and the bytes of the
    row of the tile that [progstep] selects. *)
Lemma MMArray_top_built (r : MMArrayregs) (tile : Z) :
  exists top,
    MMArray_top DATWIDTH MATSIZE r (Wire (MATSIZE * MATSIZE * DATWIDTH) tile) = Ok top /\
    List.length top = MATSIZE /\
    Forall (column_ok DATWIDTH) top /\
    forall j, (j < MATSIZE)%nat ->
      c_we (nth j top Column_none) = Wire 1 (truncate 1 (programming r)) /\
      c_tag (nth j top Column_none) = Wire 8 (truncate 8 (progstep r)) /\
      c_weight (nth j top Column_none)
      = Wire 8 (truncate 8 (tile_byte tile (Z.to_nat (progstep r)) j)).
Proof.
  unfold MMArray_top, mux. cbn [bitwidth PyRTL.Register].
  change ((2 ^ progstep_size =? List.length (weight_arr DATWIDTH MATSIZE _))%nat) with true.
  cbn [bind]. eexists. split; [reflexivity | ].
  split; [reflexivity | ]. split.
  - repeat constructor.
  - intros j Hj. unfold tile_byte, tile_row.
    destruct j as [ | [ | [ | [ | j ] ] ] ]; [ | | | | unfold MATSIZE in Hj; lia ];
      (split; [reflexivity | split; [reflexivity | ] ]).
    all: cbn [nth map seq current_weights MATSIZE DATWIDTH top_column c_weight].
    all: unfold assign; do 2 f_equal.
    all: change (Z.to_nat (value (PyRTL.Register progstep_size (progstep r))))
           with (Z.to_nat (progstep r)).
    all: destruct (Z.to_nat (progstep r)) as [ | [ | [ | [ | s ] ] ] ];
      try reflexivity; destruct s; reflexivity.
Qed.

Lemma MMArray_sequencer_streaming (r : MMArrayregs) (we : Z) :
  programming r = 1 ->
  MMArray_sequencer r (Wire 1 we)
  = Ok (if progstep r =? 3 then 0 else 1, truncate 2 (progstep r + 1)).
Proof.
  intros Hp. unfold MMArray_sequencer. rewrite !predicate_bit by reflexivity.
  cbn [bind]. rewrite Hp.
  unfold is_set, wand, wnot, weq, wadd, next, Const, PyRTL.Register.
  cbn [value bitwidth].
  change (Z.lxor 1 (Z.ones (Z.of_nat 1))) with 0. rewrite Z.land_0_r.
  change (Z.of_nat MATSIZE - 1) with 3.
  destruct (progstep r =? 3); reflexivity.
Qed.

(** A write-enable pulse while the sequencer is idle starts the streaming. *)
Lemma MMArray_sequencer_start (r : MMArrayregs) :
  programming r = 0 ->
  MMArray_sequencer r (Wire 1 1) = Ok (1, 0).
Proof.
  intros Hp. unfold MMArray_sequencer. rewrite !predicate_bit by reflexivity.
  cbn [bind]. rewrite Hp. reflexivity.
Qed.

Lemma MMArray_sequencer_built (r : MMArrayregs) (we : Z) :
  exists p s, MMArray_sequencer r (Wire 1 we) = Ok (p, s).
Proof.
  unfold MMArray_sequencer. rewrite !predicate_bit by reflexivity.
  cbn [bind]. eauto.
Qed.

(** One cycle of the array: it is built, and every cell takes the weight
    path of its column. *)
Lemma array_cycle_cells (r : MMArrayregs) (i : arrayinputs) :
  array_wf r -> arrayinputs_wf i ->
  exists top outs r',
    MMArray_top DATWIDTH MATSIZE r (Wire (MATSIZE * MATSIZE * DATWIDTH) (a_tile i)) = Ok top /\
    array_cycle r i = Ok (outs, r') /\
    MMArray_sequencer r (Wire 1 (a_we i)) = Ok (programming r', progstep r') /\
    forall k j, (k < MATSIZE)%nat -> (j < MATSIZE)%nat ->
      cell_cycle (column_in top (cells r) k j) (cell r k j) (cell r' k j).
Proof.
  intros Hwf (Hd & Hs & Hbits).
  destruct (MMArray_top_built r (a_tile i)) as (top & Etop & Ltop & Hok & _).
  destruct (MMArray_sequencer_built r (a_we i)) as (p & s & Eseq).
  destruct (MAC_rows_cells DATWIDTH MATSIZE (map (Wire DATWIDTH) (a_data i))
              (map (Wire 1) (a_switch i))) with (n := MATSIZE) (i := 0%nat)
              (rows := cells r) (cols := top)
    as (cells' & out & Erows & _ & Hcells).
  - apply Forall_map. apply Forall_forall. reflexivity.
  - apply Forall_map. revert Hbits. apply Forall_impl. intros a Ha. now split.
  - rewrite length_map. lia.
  - rewrite length_map. lia.
  - exact Hok.
  - intros k j Hk Hj. apply Hwf; [assumption | lia].
  - exists top. unfold array_cycle, MMArray. rewrite Etop. cbn [bind].
    rewrite Erows. cbn [bind]. rewrite Eseq. cbn [bind].
    eexists _, _. split; [reflexivity | ]. split; [reflexivity | ].
    split; [reflexivity | ].
    intros k j Hk Hj. apply Hcells; [assumption | lia].
Qed.

Lemma cell_cycle_wf (c : Column) (r r' : MACregs) :
  cell_cycle c r r' -> bit (current_buffer_reg r) ->
  bit (current_buffer_reg r') /\ bit (switch_reg r').
Proof.
  intros (din & acc & sw & Hl & Hb & ->) Hc. unfold MAC_next.
  cbn [current_buffer_reg switch_reg]. unfold bit, is_set, next, wnot in *.
  cbn [value bitwidth].
  destruct Hb as [-> | ->], Hc as [-> | ->]; cbn; auto.
Qed.

Lemma slice_range (lo hi : nat) (w : WireVector) :
  0 <= value (slice lo hi w) < 2 ^ Z.of_nat (hi - lo).
Proof.
  unfold slice. cbn [value].
  pose proof (truncate_range (Nat.min hi (bitwidth w) - lo)
                (Z.shiftr (value w) (Z.of_nat lo))) as H.
  split; [apply H | ].
  apply Z.lt_le_trans with (1 := proj2 H).
  apply Z.pow_le_mono_r; lia.
Qed.

Lemma tile_byte_range (tile : Z) (s j : nat) : 0 <= tile_byte tile s j < 2 ^ 8.
Proof.
  unfold tile_byte.
  destruct j as [ | [ | [ | [ | j ] ] ] ];
    cbn [nth map seq current_weights MATSIZE DATWIDTH].
  - exact (slice_range (0 * 8) (0 * 8 + 8) (tile_row tile s)).
  - exact (slice_range (1 * 8) (1 * 8 + 8) (tile_row tile s)).
  - exact (slice_range (2 * 8) (2 * 8 + 8) (tile_row tile s)).
  - exact (slice_range (3 * 8) (3 * 8 + 8) (tile_row tile s)).
  - destruct j; cbn; lia.
Qed.

(** What a cell registers from a column that carries a weight, an asserted
    write-enable and the tag [k]. *)
Lemma cell_cycle_pipeline (c : Column) (r r' : MACregs) (w : Z) (k : nat) :
  cell_cycle c r r' ->
  c_weight c = Wire 8 w -> 0 <= w < 2 ^ 8 ->
  c_we c = Wire 1 1 -> c_tag c = Wire 8 (Z.of_nat k) -> (k < 255)%nat ->
  weight_reg r' = w /\ weight_we_reg r' = 1 /\ weight_tag_reg r' = Z.of_nat (S k).
Proof.
  intros (din & acc & sw & _ & _ & ->) Ew Hw Ee Et Hk.
  unfold MAC_next. cbn [weight_reg weight_we_reg weight_tag_reg].
  rewrite Ew, Ee, Et. unfold next, slice, wadd, Const, len. cbn [value bitwidth].
  split; [now apply truncate_small | ]. split; [reflexivity | ].
  change (Nat.min 8 (S (Nat.max 8 (S (Z.to_nat (Z.log2 1))))) - 0)%nat with 8%nat.
  rewrite Z.shiftr_0_r, truncate_idem. rewrite truncate_small.
  - lia.
  - change (2 ^ Z.of_nat 8) with 256. lia.
Qed.

(** The capture: a cell that is given the tag [MATSIZE - 1] with the
    write-enable asserted holds the weight, after the cycle, in the buffer
    that its selector register then leaves unused. *)
Lemma cell_cycle_capture (c : Column) (r r' : MACregs) (w : Z) :
  cell_cycle c r r' -> bit (current_buffer_reg r) ->
  c_weight c = Wire 8 w -> 0 <= w < 2 ^ 8 ->
  c_we c = Wire 1 1 -> c_tag c = Wire 8 (Z.of_nat MATSIZE - 1) ->
  inactive_buffer (current_buffer_reg r') r' = w.
Proof.
  intros (din & acc & sw & _ & Hb & ->) Hc Ew Hw Ee Et.
  rewrite MAC_next_selector by assumption.
  pose proof (MAC_next_buffers r din acc sw (c_weight c) (c_we c) (c_tag c)) as H.
  rewrite Ew, Ee, Et in *. cbn [value len bitwidth] in H.
  rewrite Z.eqb_refl in H. cbn [andb Z.eqb Pos.eqb] in H.
  destruct H as [H _]; [now right | ].
  rewrite H. now apply truncate_small.
Qed.

Lemma column_in_streaming (r : MMArrayregs) (tile : Z) (k : nat) (top : list Column) :
  programming r = 1 -> progstep r = Z.of_nat k -> (k < MATSIZE)%nat ->
  streaming tile k r ->
  MMArray_top DATWIDTH MATSIZE r (Wire (MATSIZE * MATSIZE * DATWIDTH) tile) = Ok top ->
  forall i j, (i <= k)%nat -> (j < MATSIZE)%nat ->
    c_weight (column_in top (cells r) i j) = Wire 8 (tile_byte tile (k - i) j) /\
    c_we (column_in top (cells r) i j) = Wire 1 1 /\
    c_tag (column_in top (cells r) i j) = Wire 8 (Z.of_nat k).
Proof.
  intros Hp Hs Hk Hstr Etop i j Hi Hj.
  destruct (MMArray_top_built r tile) as (top' & Etop' & _ & _ & Htop).
  rewrite Etop in Etop'. injection Etop' as <-.
  destruct (Htop j Hj) as (Ee & Et & Ew).
  rewrite Hp in Ee. rewrite Hs in Et, Ew. rewrite Nat2Z.id in Ew.
  rewrite truncate_small in Ew by apply tile_byte_range.
  rewrite truncate_small in Et by (unfold MATSIZE in Hk; change (2 ^ Z.of_nat 8) with 256; lia).
  destruct i as [ | i].
  - cbn [column_in]. rewrite Nat.sub_0_r. auto.
  - cbn [column_in c_weight c_we c_tag]. rewrite Ew, Et. cbn [len bitwidth].
    destruct (Hstr i j) as (H1 & H2 & H3); [lia | unfold MATSIZE in *; lia | assumption | ].
    unfold cell in H1, H2, H3. rewrite H1, H2, H3.
    replace (k - 1 - i)%nat with (k - S i)%nat by lia. auto.
Qed.

(** One cycle of streaming. *)
Lemma streaming_cycle (r : MMArrayregs) (tile : Z) (k : nat) (inp : arrayinputs) :
  array_wf r -> arrayinputs_wf inp -> a_tile inp = tile ->
  programming r = 1 -> progstep r = Z.of_nat k -> (k < MATSIZE)%nat ->
  streaming tile k r ->
  exists outs r',
    array_cycle r inp = Ok (outs, r') /\
    array_wf r' /\ streaming tile (S k) r' /\
    programming r' = (if (S k <? MATSIZE)%nat then 1 else 0) /\
    progstep r' = (if (S k <? MATSIZE)%nat then Z.of_nat (S k) else 0) /\
    (S k = MATSIZE -> forall i j, (i < MATSIZE)%nat -> (j < MATSIZE)%nat ->
       inactive_buffer (current_buffer_reg (cell r' i j)) (cell r' i j)
       = tile_byte tile (MATSIZE - 1 - i) j).
Proof.
  intros Hwf Hin Htile Hp Hs Hk Hstr.
  destruct (array_cycle_cells r inp Hwf Hin) as (top & outs & r' & Etop & Ecyc & Eseq & Hcells).
  rewrite Htile in Etop.
  pose proof (column_in_streaming r tile k top Hp Hs Hk Hstr Etop) as Hcol.
  rewrite (MMArray_sequencer_streaming r _ Hp) in Eseq. injection Eseq as Ep Est.
  exists outs, r'. split; [exact Ecyc | ]. split; [ | split; [ | split; [ | split ] ] ].
  - intros i j Hi Hj. apply (cell_cycle_wf _ _ _ (Hcells i j Hi Hj)). now apply Hwf.
  - intros i j Hi Hi' Hj.
    destruct (Hcol i j ltac:(lia) Hj) as (Ew & Ee & Et).
    destruct (cell_cycle_pipeline _ _ _ _ k (Hcells i j Hi' Hj) Ew
                (tile_byte_range _ _ _) Ee Et) as (H1 & H2 & H3).
    { unfold MATSIZE in Hk. lia. }
    rewrite H1, H2, H3. replace (S k - 1 - i)%nat with (k - i)%nat by lia. auto.
  - rewrite <- Ep, Hs. unfold MATSIZE in *.
    destruct k as [ | [ | [ | [ | k ] ] ] ]; try reflexivity; lia.
  - rewrite <- Est, Hs. unfold MATSIZE in *.
    destruct k as [ | [ | [ | [ | k ] ] ] ]; try reflexivity; lia.
  - intros Hlast i j Hi Hj.
    assert (k = 3%nat) as -> by (unfold MATSIZE in Hlast; lia).
    destruct (Hcol i j ltac:(unfold MATSIZE in Hi; lia) Hj) as (Ew & Ee & Et).
    apply (cell_cycle_capture _ _ _ _ (Hcells i j Hi Hj)); try assumption.
    + now apply Hwf.
    + apply tile_byte_range.
Qed.

Lemma In_firstn {A : Type} (k : nat) (l : list A) (x : A) : In x (firstn k l) -> In x l.
Proof.
  revert l. induction k as [ | k IH]; intros l H; [contradiction | ].
  destruct l as [ | y l]; [contradiction | ].
  cbn in H. destruct H as [-> | H]; [now left | right; auto].
Qed.

Lemma streaming_run (tile : Z) (inputs : list arrayinputs) :
  forall (k : nat) (r : MMArrayregs),
    array_wf r -> programming r = 1 -> progstep r = Z.of_nat k -> streaming tile k r ->
    (k + List.length inputs <= MATSIZE)%nat ->
    Forall (fun i => arrayinputs_wf i /\ a_tile i = tile) inputs ->
    exists r',
      array_run r inputs = Ok r' /\
      array_wf r' /\ streaming tile (k + List.length inputs) r' /\
      (inputs <> [] ->
       programming r' = (if (k + List.length inputs <? MATSIZE)%nat then 1 else 0) /\
       ((k + List.length inputs)%nat = MATSIZE -> distributed tile r')).
Proof.
  induction inputs as [ | x inputs IH]; intros k r Hwf Hp Hs Hstr Hlen Hin.
  - exists r. cbn [array_run List.length]. rewrite Nat.add_0_r.
    split; [reflexivity | ]. split; [assumption | ]. split; [assumption | ].
    intros H. now elim H.
  - cbn [List.length] in Hlen. inversion Hin as [ | ? ? [Hx Ht] Hin']; subst.
    destruct (streaming_cycle r (a_tile x) k x Hwf Hx eq_refl Hp Hs ltac:(lia) Hstr)
      as (outs & r1 & E1 & Hwf1 & Hstr1 & Hp1 & Hs1 & Hcap).
    cbn [array_run List.length]. rewrite E1. cbn [bind].
    replace (k + S (List.length inputs))%nat with (S k + List.length inputs)%nat by lia.
    destruct inputs as [ | y inputs].
    + exists r1. cbn [array_run List.length]. rewrite Nat.add_0_r.
      split; [reflexivity | ]. split; [assumption | ]. split; [assumption | ].
      intros _. split; [exact Hp1 | exact Hcap].
    + cbn [List.length] in Hlen.
      destruct (Nat.ltb_spec (S k) MATSIZE) as [Hlt | Hge]; [ | lia ].
      destruct (IH (S k) r1 Hwf1 Hp1 Hs1 Hstr1 ltac:(cbn [List.length]; lia) Hin')
        as (r' & E' & Hwf' & Hstr' & Hrest).
      exists r'. split; [assumption | ]. split; [assumption | ]. split; [assumption | ].
      intros _. apply Hrest. discriminate.
Qed.

(** The bytes of a packed list: shifting drops bytes from the front,
    truncating keeps the front. *)
Lemma pack_shiftr (n : nat) :
  forall l, Forall (fun b => 0 <= b < 2 ^ 8) l ->
    Z.shiftr (pack l) (Z.of_nat (n * 8)) = pack (skipn n l).
Proof.
  induction n as [ | n IH]; intros l Hl.
  - cbn [Nat.mul Z.of_nat skipn]. apply Z.shiftr_0_r.
  - destruct l as [ | b l].
    + cbn [pack skipn]. apply Z.shiftr_0_l.
    + inversion Hl as [ | ? ? Hb Hl']; subst. cbn [skipn pack].
      replace (Z.of_nat (S n * 8)) with (8 + Z.of_nat (n * 8)) by lia.
      rewrite <- Z.shiftr_shiftr by lia. rewrite <- (IH l Hl'). f_equal.
      rewrite Z.shiftr_div_pow2, Z.shiftl_mul_pow2 by lia.
      change (2 ^ 8) with 256 in *.
      rewrite Z.div_add by lia. rewrite Z.div_small by lia. reflexivity.
Qed.

Lemma pack_truncate (n : nat) :
  forall l, Forall (fun b => 0 <= b < 2 ^ 8) l ->
    truncate (n * 8) (pack l) = pack (firstn n l).
Proof.
  unfold truncate. induction n as [ | n IH]; intros l Hl.
  - cbn [Nat.mul Z.of_nat firstn pack]. apply Z.mod_1_r.
  - destruct l as [ | b l].
    + cbn [pack firstn]. apply Zmod_0_l.
    + inversion Hl as [ | ? ? Hb Hl']; subst. cbn [firstn pack].
      rewrite <- (IH l Hl').
      replace (Z.of_nat (S n * 8)) with (8 + Z.of_nat (n * 8)) by lia.
      rewrite Z.pow_add_r by lia. rewrite !Z.shiftl_mul_pow2 by lia.
      change (2 ^ 8) with 256 in *.
      assert (Hp : 0 < 2 ^ Z.of_nat (n * 8)) by (apply Z.pow_pos_nonneg; lia).
      rewrite Z.rem_mul_r by lia.
      assert (E1 : (b + pack l * 256) mod 256 = b).
      { rewrite Z.mod_add by lia. apply Z.mod_small. lia. }
      assert (E2 : (b + pack l * 256) / 256 = pack l).
      { rewrite Z.div_add by lia. rewrite Z.div_small by lia. reflexivity. }
      rewrite E1, E2. lia.
Qed.

Lemma bytes_firstn (P : Z -> Prop) (n : nat) : forall l, Forall P l -> Forall P (firstn n l).
Proof.
  induction n as [ | n IH]; intros l H; [constructor | ].
  destruct H; cbn [firstn]; constructor; auto.
Qed.

Lemma bytes_skipn (P : Z -> Prop) (n : nat) : forall l, Forall P l -> Forall P (skipn n l).
Proof.
  induction n as [ | n IH]; intros l H; [exact H | ].
  destruct H; cbn [skipn]; [constructor | auto].
Qed.

(** The byte that the sequencer cuts out of the tile of a matrix for step
    [s] and column [j] is the entry of row [s] and column [j]. *)
Lemma tile_byte_pack (M : list (list Z)) (s j : nat) :
  tile_matrix M -> (s < MATSIZE)%nat -> (j < MATSIZE)%nat ->
  tile_byte (pack (List.concat M)) s j = entry M s j.
Proof.
  intros [Hlen Hrows] Hs Hj.
  assert (Hbytes : Forall (fun b => 0 <= b < 2 ^ 8) (List.concat M)).
  { apply Forall_concat. revert Hrows. apply Forall_impl. now intros row [_ H]. }
  assert (E : tile_byte (pack (List.concat M)) s j
              = pack (firstn 1 (skipn j (firstn 4 (skipn (s * 4) (List.concat M)))))).
  { rewrite <- (pack_truncate 1), <- (pack_shiftr j), <- (pack_truncate 4), <- (pack_shiftr (s * 4));
      auto using bytes_firstn, bytes_skipn.
    unfold MATSIZE in *. unfold tile_byte, tile_row.
    destruct s as [ | [ | [ | [ | s ] ] ] ]; [ | | | | lia ];
      (destruct j as [ | [ | [ | [ | j ] ] ] ]; [ | | | | lia ]); reflexivity. }
  rewrite E. unfold entry. unfold MATSIZE in *.
  clear Hbytes E.
  destruct M as [ | r0 [ | r1 [ | r2 [ | r3 [ | r4 M ] ] ] ] ]; try discriminate.
  apply Forall_cons_iff in Hrows as [[L0 _] Hrows].
  apply Forall_cons_iff in Hrows as [[L1 _] Hrows].
  apply Forall_cons_iff in Hrows as [[L2 _] Hrows].
  apply Forall_cons_iff in Hrows as [[L3 _] _].
  destruct r0 as [ | ? [ | ? [ | ? [ | ? [ | ? ? ] ] ] ] ]; try discriminate L0.
  destruct r1 as [ | ? [ | ? [ | ? [ | ? [ | ? ? ] ] ] ] ]; try discriminate L1.
  destruct r2 as [ | ? [ | ? [ | ? [ | ? [ | ? ? ] ] ] ] ]; try discriminate L2.
  destruct r3 as [ | ? [ | ? [ | ? [ | ? [ | ? ? ] ] ] ] ]; try discriminate L3.
  destruct s as [ | [ | [ | [ | s ] ] ] ]; [ | | | | lia ];
    (destruct j as [ | [ | [ | [ | j ] ] ] ]; [ | | | | lia ]);
    cbn [List.concat app skipn firstn nth pack Nat.mul Nat.add];
    rewrite Z.shiftl_0_l; lia.
Qed.

(** C3: from the start of a programming pass (the sequencer programming, its
    step counter at 0) the tile of a matrix [M] is streamed for [MATSIZE]
    cycles, whatever activations and switch bits the rows receive meanwhile.
    After [k] of these cycles the bytes of row [s] of [M], which entered at
    step [s], have crossed [k - s] rows: they are in the pipeline registers
    of row [k - 1 - s] with the write-enable set and the tag [s + (k - s)].
    After [MATSIZE] cycles the sequencer has left the programming state and
    the inactive buffer of the cell in row [i] and column [j] holds the
    entry of row [MATSIZE - 1 - i] and column [j] of [M]. *)
Theorem C3_tile_distribution (r : MMArrayregs) (M : list (list Z)) (inputs : list arrayinputs) :
  programming r = 1 -> progstep r = 0 -> array_wf r ->
  tile_matrix M ->
  List.length inputs = MATSIZE ->
  Forall (fun i => arrayinputs_wf i /\ a_tile i = pack (List.concat M)) inputs ->
  (forall k, (1 <= k <= MATSIZE)%nat ->
     exists rk, array_run r (firstn k inputs) = Ok rk /\
                programming rk = (if (k <? MATSIZE)%nat then 1 else 0) /\
                forall s j, (s < k)%nat -> (j < MATSIZE)%nat ->
                  weight_we_reg (cell rk (k - 1 - s) j) = 1 /\
                  weight_tag_reg (cell rk (k - 1 - s) j) = Z.of_nat (s + (k - s)) /\
                  weight_reg (cell rk (k - 1 - s) j) = entry M s j) /\
  exists r', array_run r inputs = Ok r' /\ programming r' = 0 /\
             forall i j, (i < MATSIZE)%nat -> (j < MATSIZE)%nat ->
               inactive_buffer (current_buffer_reg (cell r' i j)) (cell r' i j)
               = entry M (MATSIZE - 1 - i) j.
Proof.
  intros Hp Hs Hwf HM Hlen Hin.
  assert (Hstr0 : streaming (pack (List.concat M)) 0 r) by (intros i j Hi; lia).
  split.
  - intros k Hk.
    destruct (streaming_run (pack (List.concat M)) (firstn k inputs) 0 r Hwf Hp Hs Hstr0)
      as (rk & Ek & _ & Hstr & Hrest).
    + rewrite length_firstn. lia.
    + apply Forall_forall. intros x Hx.
      apply (proj1 (Forall_forall _ inputs) Hin). revert Hx. apply In_firstn.
    + rewrite length_firstn in *. replace (Nat.min k (List.length inputs)) with k in * by lia.
      exists rk. split; [exact Ek | ]. split.
      * apply Hrest. destruct inputs; [discriminate | ]. destruct k; [lia | discriminate].
      * intros s j Hsk Hj. cbn [Nat.add] in Hstr.
        destruct (Hstr (k - 1 - s)%nat j ltac:(lia) ltac:(lia) Hj) as (H1 & H2 & H3).
        split; [exact H1 | ]. split.
        -- rewrite H2. f_equal. lia.
        -- rewrite H3. replace (k - 1 - (k - 1 - s))%nat with s by lia.
           apply tile_byte_pack; [assumption | lia | assumption].
  - destruct (streaming_run (pack (List.concat M)) inputs 0 r Hwf Hp Hs Hstr0 ltac:(lia) Hin)
      as (r' & E' & _ & _ & Hrest).
    exists r'. split; [exact E' | ].
    destruct Hrest as [Hp' Hd]; [destruct inputs; [discriminate | discriminate] | ].
    rewrite Hlen in Hp'. split; [exact Hp' | ].
    intros i j Hi Hj. rewrite (Hd Hlen i j Hi Hj).
    apply tile_byte_pack; [assumption | lia | assumption].
Qed.

Lemma C3_tile_distribution_witness :
  (forall k, (1 <= k <= MATSIZE)%nat ->
     exists rk,
       array_run MMArray_programming
         (firstn k (repeat (stream (pack (List.concat weights))) MATSIZE)) = Ok rk /\
       programming rk = (if (k <? MATSIZE)%nat then 1 else 0) /\
       forall s j, (s < k)%nat -> (j < MATSIZE)%nat ->
         weight_we_reg (cell rk (k - 1 - s) j) = 1 /\
         weight_tag_reg (cell rk (k - 1 - s) j) = Z.of_nat (s + (k - s)) /\
         weight_reg (cell rk (k - 1 - s) j) = entry weights s j) /\
  exists r',
    array_run MMArray_programming (repeat (stream (pack (List.concat weights))) MATSIZE) = Ok r' /\
    programming r' = 0 /\
    forall i j, (i < MATSIZE)%nat -> (j < MATSIZE)%nat ->
      inactive_buffer (current_buffer_reg (cell r' i j)) (cell r' i j)
      = entry weights (MATSIZE - 1 - i) j.
Proof.
  apply (C3_tile_distribution MMArray_programming weights
           (repeat (stream (pack (List.concat weights))) MATSIZE));
    try reflexivity.
  - intros i j Hi Hj. unfold MATSIZE in *.
    destruct i as [ | [ | [ | [ | i ] ] ] ]; [ | | | | lia ];
      (destruct j as [ | [ | [ | [ | j ] ] ] ]; [ | | | | lia ]);
      split; left; reflexivity.
  - split; [reflexivity | ]. repeat constructor; cbn; lia.
  - repeat constructor.
Defined.

(** The tile of [testall], streamed into an array at reset, ends with row [s]
    of the tile in the cells of row [MATSIZE - 1 - s]. *)
Lemma weights_distribution_example :
  exists r',
    array_run MMArray_programming (repeat (stream (pack (List.concat weights))) MATSIZE) = Ok r'
    /\ map (map wbuf2) (cells r') = rev weights
    /\ map (map current_buffer_reg) (cells r') = repeat (repeat 0 MATSIZE) MATSIZE.
Proof. eexists. split; [vm_compute; reflexivity | ]. split; reflexivity. Qed.

(** * Properties of [MMU] *)

(** C2, evaluated on a vector that is the last of its pass: it is presented
    in cycle 0 with write address 7, overwrite and last-vector set.  From
    reset, the last-vector flag is at the first accumulator bank in cycle 4,
    while the write-enable of the same vector is there in cycle 5.  With the
    weights of [testall] in the cells and the vector [12, 7, 2, 6], cycle 4
    has the flag and neither write-enable nor sum; cycle 5 has the
    write-enable, the address, the overwrite flag and the sum of column 0,
    and the flag is gone.  At the output, [done] is raised in cycle 8, in
    which the last bank is only being written: its sum can be read in
    cycle 9. *)
Theorem C2_lastvec_one_cycle_early :
  let inputs := present vector0 7 1 1 :: repeat (read 7) 8 in
  (exists r4 so4 sums4 r5 so5 sums5,
     run testall_reset (firstn 4 inputs) = Ok r4 /\
     bank_inputs r4 = Ok (so4, sums4) /\
     value (s_doneout so4) = 1 /\ value (s_weout so4) = 0 /\
     run testall_reset (firstn 5 inputs) = Ok r5 /\
     bank_inputs r5 = Ok (so5, sums5) /\
     value (s_doneout so5) = 0 /\ value (s_weout so5) = 1) /\
  (exists r4 so4 sums4,
     run (loaded weights) (firstn 4 inputs) = Ok r4 /\
     bank_inputs r4 = Ok (so4, sums4) /\
     value (s_doneout so4) = 1 /\ value (s_weout so4) = 0 /\
     map value sums4 = [0; 0; 0; 0]) /\
  (exists r5 so5 sums5,
     run (loaded weights) (firstn 5 inputs) = Ok r5 /\
     bank_inputs r5 = Ok (so5, sums5) /\
     value (s_doneout so5) = 0 /\ value (s_weout so5) = 1 /\
     value (s_addrout so5) = 7 /\ value (s_clearout so5) = 1 /\
     map value sums5 = [114; 0; 0; 0]) /\
  (exists r8 w8 r9 w9 r10,
     run (loaded weights) (firstn 8 inputs) = Ok r8 /\
     step r8 (read 7) = Ok (w8, r9) /\
     value (done w8) = 1 /\ map value (accout w8) = [114; 123; 180; 0] /\
     step r9 (read 7) = Ok (w9, r10) /\
     value (done w9) = 0 /\ map value (accout w9) = [114; 123; 180; 107]).
Proof.
  cbv zeta. split; [ | split; [ | split ] ].
  - eexists _, _, _, _, _, _. split; [vm_compute; reflexivity | ].
    split; [vm_compute; reflexivity | ]. split; [reflexivity | ]. split; [reflexivity | ].
    split; [vm_compute; reflexivity | ].
    split; [vm_compute; reflexivity | ]. split; reflexivity.
  - eexists _, _, _. split; [vm_compute; reflexivity | ].
    split; [vm_compute; reflexivity | ]. repeat split.
  - eexists _, _, _. split; [vm_compute; reflexivity | ].
    split; [vm_compute; reflexivity | ]. repeat split.
  - eexists _, _, _, _, _. split; [vm_compute; reflexivity | ].
    split; [vm_compute; reflexivity | ]. split; [reflexivity | ].
    split; [reflexivity | ].
    split; [vm_compute; reflexivity | ]. split; reflexivity.
Qed.

(** The widths of the two counters of the controller. *)
Lemma MMU_counter_widths : MMU_logn1 MATSIZE = 4%nat /\ MMU_logn MATSIZE = 2%nat.
Proof. split; reflexivity. Qed.

Lemma FIFO_ready (matsize : nat) (r r' : FIFOregs)
    (mem_data mem_valid next_tile tile ready fl : WireVector) :
  FIFO matsize r mem_data mem_valid next_tile = Ok (tile, ready, fl, r') ->
  ready = wand (wnot (Wire 1 (empty4 r))) (wnot next_tile).
Proof.
  unfold FIFO. destruct (predicate mem_valid); [ | discriminate ]. cbn [bind].
  destruct (FIFO_moves r); [ | discriminate ]. cbn [bind].
  destruct (predicate _); [ | discriminate ]. cbn [bind].
  destruct (predicate _); [ | discriminate ]. cbn [bind].
  now intros [= _ <- _ _].
Qed.

(** What one cycle of the unit consists of, for the controller. *)
Lemma MMU_controller (r r' : MMUregs) (i : MMUinputs) (dp : WireVector) (w : MMUwires) :
  testall_MMU r i dp = Ok (w, r') ->
  MMU_control MATSIZE (weights_wait r) (weights_count r) (startup r)
    (Wire 1 (switch_weights i)) (wand (wnot (Wire 1 (empty4 (fifo r)))) (wnot dp))
  = Ok (weights_wait r', weights_count r', weights_we w, done_programming w)
  /\ tile_ready w = wand (wnot (Wire 1 (empty4 (fifo r)))) (wnot dp)
  /\ assertion w = wnot (wand (Wire 1 (switch_weights i))
                              (wne (Wire 4 (weights_wait r)) (Const 0))).
Proof.
  unfold testall_MMU, MMU.
  destruct (FIFO MATSIZE (fifo r) _ _ dp) as [[[[tile ready] fl] fifo'] | ] eqn:EF;
    [ | discriminate ].
  apply FIFO_ready in EF. subst ready. cbn [bind].
  destruct (systolic_setup _ _ _ _ _ _ _ _) as [[so setup'] | ]; [ | discriminate ].
  cbn [bind].
  destruct (MMU_control _ _ _ _ _ _) as [[[[wait' count'] we] dpo] | ]; [ | discriminate ].
  cbn [bind].
  destruct (MMArray _ _ _ _ _ _ _) as [[mouts array'] | ]; [ | discriminate ].
  cbn [bind].
  destruct (accumulators _ _ _ _ _ _ _ _) as [[[accs don] banks'] | ]; [ | discriminate ].
  cbn [bind]. intros [= <- <-]. cbn. auto.
Qed.

(** The controller, by cases: the next value of the wait counter, and the two
    wires.  [ready] is the queue's [ready] bit. *)
Lemma MMU_control_spec (wait count start switch ready : Z) :
  bit switch -> bit ready -> bit start ->
  let pushing := (wait =? 5) && (ready =? 1) in
  MMU_control MATSIZE wait count start (Wire 1 switch) (Wire 1 ready)
  = Ok (if start =? 0 then 5
        else if switch =? 1 then 1
        else if negb (wait =? 5) then truncate 4 (wait + 1)
        else if negb (count =? 0) then 0
        else wait,
        if pushing then 1
        else if count =? 4 then 0
        else truncate 2 (count + 1),
        Wire 1 (if negb pushing && negb (count =? 4) then 1 else 0),
        Wire 1 (if negb pushing && (count =? 4) then 1 else 0)).
Proof.
  intros Hs Hr Hst. cbv zeta. unfold MMU_control.
  rewrite !predicate_bit by reflexivity. cbn [bind].
  change (MMU_logn1 MATSIZE) with 4%nat. change (MMU_logn MATSIZE) with 2%nat.
  unfold is_set, wand, wnot, wne, weq, wadd, next, Const, PyRTL.Register.
  cbn [value bitwidth]. change (Z.of_nat MATSIZE + 1) with 5.
  change (Z.of_nat MATSIZE) with 4.
  destruct Hs as [-> | ->], Hr as [-> | ->], Hst as [-> | ->];
    destruct (wait =? 5), (count =? 0) eqn:E0, (count =? 4) eqn:E4;
    try reflexivity;
    apply Z.eqb_eq in E0; apply Z.eqb_eq in E4; lia.
Qed.

(** [done_programming] is 0 unless the progress counter holds [matrix_size],
    whatever the other signals are. *)
Lemma MMU_control_done (wait count start : Z) (switch ready : WireVector)
    (wait' count' : Z) (we dp : WireVector) :
  MMU_control MATSIZE wait count start switch ready = Ok (wait', count', we, dp) ->
  count <> Z.of_nat MATSIZE -> dp = Wire 1 0.
Proof.
  unfold MMU_control. intros H Hc.
  repeat (match type of H with
          | bind ?c _ = _ => destruct c as [? | ?] eqn:?; [cbn [bind] in H | discriminate]
          end).
  injection H as _ _ _ <-.
  match goal with
  | E : predicate (wand (wnot _) (weq _ (Const (Z.of_nat MATSIZE)))) = Ok ?q |- _ =>
      unfold predicate in E; destruct (len _ =? 1)%nat; [ | discriminate ];
      injection E as <-
  end.
  unfold is_set, wand, weq, Const, PyRTL.Register. cbn [value].
  change (Z.of_nat MATSIZE) with 4 in Hc.
  destruct (Z.eqb_spec count 4) as [E | _]; [contradiction | ].
  now rewrite Z.land_0_r.
Qed.

(** The cycle of the circuit is the one that [cycle] computes: a 2-bit
    progress counter is never [matrix_size], so the only bit that the wire
    [done_programming] can carry is 0. *)
Lemma settled_cycle (r r' : MMUregs) (i : MMUinputs) (w : MMUwires) :
  weights_count r <> Z.of_nat MATSIZE ->
  settled r i w r' <-> cycle r i = Ok (w, r').
Proof.
  intros Hc. unfold settled, cycle. split.
  - intros (b & Hb & E & Hdp).
    destruct (MMU_controller _ _ _ _ _ E) as (Ectl & _).
    apply MMU_control_done in Ectl; [ | assumption ].
    rewrite Ectl in Hdp. cbn in Hdp. now subst b.
  - intros E. exists 0. split; [now left | ]. split; [exact E | ].
    destruct (MMU_controller _ _ _ _ _ E) as (Ectl & _).
    apply MMU_control_done in Ectl; [ | assumption ].
    now rewrite Ectl.
Qed.

(** The progress counter is below 4 after every cycle. *)
Lemma weights_count_range (r r' : MMUregs) (i : MMUinputs) (w : MMUwires) :
  0 <= weights_count r < 4 -> cycle r i = Ok (w, r') -> 0 <= weights_count r' < 4.
Proof.
  intros Hc E. destruct (MMU_controller _ _ _ _ _ E) as (Ectl & _).
  unfold MMU_control in Ectl.
  repeat (match type of Ectl with
          | bind ?c _ = _ => destruct c as [? | ?]; [cbn [bind] in Ectl | discriminate]
          end).
  injection Ectl as _ <- _ _.
  change (MMU_logn MATSIZE) with 2%nat.
  repeat match goal with |- context [if ?c then _ else _] => destruct c end;
    try apply (truncate_range 2); assumption.
Qed.

(** [sim.step] raises exactly when a switch is requested while the wait
    counter is not 0. *)
Lemma rtl_assert_spec (r r' : MMUregs) (i : MMUinputs) (w : MMUwires) :
  bit (switch_weights i) -> cycle r i = Ok (w, r') ->
  (step r i = Raise rtl_assert_message <-> switch_weights i = 1 /\ weights_wait r <> 0)
  /\ (step r i = Ok (w, r') <-> ~ (switch_weights i = 1 /\ weights_wait r <> 0)).
Proof.
  intros Hs E. unfold step. unfold cycle in E. rewrite E. cbn [bind].
  destruct (MMU_controller _ _ _ _ _ E) as (_ & _ & Ea). rewrite Ea.
  unfold is_set, wnot, wand, wne, weq, Const. cbn [value bitwidth].
  destruct Hs as [-> | ->]; destruct (Z.eqb_spec (weights_wait r) 0) as [E0 | E0]; cbn;
    repeat split; intros; try reflexivity; try discriminate; try lia;
    intuition (congruence || lia).
Qed.

(** [weights_we] is asserted in every cycle except those in which the wait
    counter is at its maximum and the queue is ready. *)
Lemma weights_we_spec (r r' : MMUregs) (i : MMUinputs) (w : MMUwires) :
  bit (switch_weights i) -> bit (startup r) -> bit (empty4 (fifo r)) ->
  weights_count r <> Z.of_nat MATSIZE ->
  cycle r i = Ok (w, r') ->
  value (weights_we w)
  = (if (weights_wait r =? 5) && (empty4 (fifo r) =? 0) then 0 else 1)
  /\ value (done_programming w) = 0.
Proof.
  intros Hs Hst He Hc E. destruct (MMU_controller _ _ _ _ _ E) as (Ectl & _).
  pose proof (MMU_control_done _ _ _ _ _ _ _ _ _ Ectl Hc) as ->.
  split; [ | reflexivity ].
  change (Z.of_nat MATSIZE) with 4 in Hc. apply Z.eqb_neq in Hc.
  destruct He as [He | He]; rewrite He in Ectl |- *.
  - change (wand (wnot (Wire 1 0)) (wnot (Wire 1 0))) with (Wire 1 1) in Ectl.
    rewrite MMU_control_spec in Ectl by (unfold bit; auto).
    injection Ectl as _ _ <-. rewrite Hc. cbn [value].
    now destruct (weights_wait r =? 5).
  - change (wand (wnot (Wire 1 1)) (wnot (Wire 1 0))) with (Wire 1 0) in Ectl.
    rewrite MMU_control_spec in Ectl by (unfold bit; auto).
    injection Ectl as _ _ <-. rewrite Hc. cbn [value].
    now destruct (weights_wait r =? 5).
Qed.

(** C1, evaluated where the assertion and the counter disagree.  At reset the
    wait counter is 0 and a switch request in that cycle passes.  One cycle
    later the counter is at its maximum [matrix_size + 1], and a switch
    request raises.  A request in cycle 2 passes, the counter is back at its
    maximum [matrix_size + 1] cycles later, and a second request in that
    cycle raises.  So does the swap of [testall]'s stimulus, which comes with
    the first vector after 15 cycles without a switch. *)
Theorem C1_switch_at_maximum_aborts :
  weights_wait testall_reset = 0 /\
  (exists w r1, step testall_reset request_switch = Ok (w, r1)) /\
  (exists w r1,
     step testall_reset idle = Ok (w, r1) /\
     weights_wait r1 = Z.of_nat MATSIZE + 1 /\
     step r1 request_switch = Raise rtl_assert_message) /\
  (exists r7,
     run testall_reset ([idle; idle; request_switch] ++ repeat idle MATSIZE) = Ok r7 /\
     weights_wait r7 = Z.of_nat MATSIZE + 1 /\
     step r7 request_switch = Raise rtl_assert_message) /\
  run testall_reset (repeat idle 15 ++ [swap_first_vector]) = Raise rtl_assert_message.
Proof.
  split; [reflexivity | ]. split; [ | split; [ | split ] ].
  - eexists _, _. vm_compute. reflexivity.
  - eexists _, _. split; [vm_compute; reflexivity | ]. split; reflexivity.
  - eexists. split; [vm_compute; reflexivity | ]. split; reflexivity.
  - vm_compute. reflexivity.
Qed.

(** C4, evaluated from reset with every input at 0.  Each entry is one cycle:
    the wait counter, the progress counter, [weights_we] and
    [done_programming].  [weights_we] is asserted in cycle 0, before the wait
    counter has been at its maximum, and in five consecutive cycles out of
    every six, all of them cycles in which the wait counter is below its
    maximum; it is not asserted in the cycle that sets the progress counter
    to 1.  The progress counter wraps from 3 to 0, and [done_programming] is
    never asserted. *)
Theorem C4_write_enable_outside_a_pass :
  controller_trace testall_reset (repeat idle 14)
  = Ok [(0, 0, 1, 0); (5, 1, 0, 0);
        (0, 1, 1, 0); (1, 2, 1, 0); (2, 3, 1, 0); (3, 0, 1, 0); (4, 1, 1, 0); (5, 2, 0, 0);
        (0, 1, 1, 0); (1, 2, 1, 0); (2, 3, 1, 0); (3, 0, 1, 0); (4, 1, 1, 0); (5, 2, 0, 0)].
Proof. vm_compute. reflexivity. Qed.

(** The states of a run from reset, and what holds in all of them: the
    progress counter is below 4, so the cycle that [step] computes is the
    cycle of the circuit. *)
Lemma reachable_count (r : MMUregs) : reachable r -> 0 <= weights_count r < 4.
Proof.
  induction 1 as [ | r i w r' _ IH E].
  - cbn. lia.
  - exact (weights_count_range r r' i w IH E).
Qed.

Lemma reachable_settled (r r' : MMUregs) (i : MMUinputs) (w : MMUwires) :
  reachable r -> settled r i w r' <-> cycle r i = Ok (w, r').
Proof.
  intros H. apply settled_cycle. pose proof (reachable_count r H).
  change (Z.of_nat MATSIZE) with 4. lia.
Qed.

(** * Every cycle of the unit is built *)

Lemma truncate_1_bit (x : Z) : bit (truncate 1 x).
Proof.
  unfold bit, truncate. change (2 ^ Z.of_nat 1) with 2.
  pose proof (Z.mod_pos_bound x 2). lia.
Qed.

Lemma tap_chain_bits (n : nat) :
  forall (regs : list Z) (input : WireVector),
    (forall k, bit (nth k regs 0)) ->
    List.length (fst (tap_chain 1 n regs input)) = n /\
    Forall (fun w => len w = 1%nat /\ bit (value w)) (fst (tap_chain 1 n regs input)) /\
    forall k, bit (nth k (snd (tap_chain 1 n regs input)) 0).
Proof.
  induction n as [ | n IH]; intros regs input Hregs.
  - cbn. repeat split; [constructor | ]. intros [ | k]; now left.
  - cbn [tap_chain].
    destruct (IH (tl regs) (PyRTL.Register 1 (hd 0 regs))) as (L & F & B).
    { intros k. rewrite nth_tl. apply Hregs. }
    destruct (tap_chain 1 n (tl regs) _) as [taps regs']. cbn [fst snd] in *.
    split; [cbn [List.length]; now rewrite L | ]. split.
    + constructor; [ | assumption ]. split; [reflexivity | ].
      cbn [value PyRTL.Register]. rewrite hd_nth. apply Hregs.
    + intros [ | k]; [apply truncate_1_bit | apply B].
Qed.

Lemma diagonal_rows_wires (n : nat) :
  forall (row : nat) (first : list Z) (bufs : list (list Z)),
    List.length (fst (diagonal_rows n (S row) first bufs)) = n /\
    Forall (fun w => len w = DATWIDTH) (fst (diagonal_rows n (S row) first bufs)).
Proof.
  induction n as [ | n IH]; intros row first bufs; [split; [reflexivity | constructor] | ].
  cbn [diagonal_rows].
  pose proof (delay_chain_out DATWIDTH (S row) (hd [] bufs)
                (PyRTL.Register DATWIDTH (nth (S row) first 0))) as Hout.
  destruct (delay_chain DATWIDTH (S row) _ _) as [last regs'].
  destruct (IH (S row) first (tl bufs)) as (L & F).
  destruct (diagonal_rows n (S (S row)) first (tl bufs)) as [lasts bufs'].
  cbn [fst] in *. subst last. split; [cbn [List.length]; now rewrite L | ].
  constructor; [reflexivity | assumption].
Qed.

(** The skew buffer hands the array [matsize] activations of [DATWIDTH] bits
    and [matsize] switch bits. *)
Lemma systolic_setup_wires (m : nat) (r : setupregs)
    (vec_in waddr valid clearbit lastvec switch : WireVector) :
  (forall k, bit (nth k (switchout r) 0)) ->
  exists so r',
    systolic_setup (S m) r vec_in waddr valid clearbit lastvec switch = Ok (so, r') /\
    List.length (s_lastcolumn so) = S m /\
    Forall (fun w => len w = DATWIDTH) (s_lastcolumn so) /\
    List.length (s_switchout so) = S m /\
    Forall (fun w => len w = 1%nat /\ bit (value w)) (s_switchout so) /\
    len (s_weout so) = 1%nat /\ len (s_clearout so) = 1%nat /\
    (forall k, bit (nth k (switchout r') 0)).
Proof.
  intros Hsw. unfold systolic_setup.
  destruct (tap_chain_bits (S m) (switchout r) switch Hsw) as (Lt & Ft & Bt).
  destruct (tap_chain 1 (S m) (switchout r) switch) as [switches switchout'].
  pose proof (delay_chain_out 1 (S m) (we_chain r) (PyRTL.Register 1 (wereg r))) as Hw.
  pose proof (delay_chain_out 1 (S m) (clear_chain r) (PyRTL.Register 1 (clearreg r))) as Hc.
  destruct (delay_chain (len waddr) (S m) (addr_chain r) _) as [addrout addr_chain'].
  destruct (delay_chain 1 (S m) (we_chain r) _) as [weout we_chain'].
  destruct (delay_chain 1 (S m) (clear_chain r) _) as [clearout clear_chain'].
  destruct (delay_chain 1 (S m) (done_chain r) _) as [doneout done_chain'].
  destruct (diagonal_rows_wires (S m - 1) 0 (firstcolumn r) (diagonal r)) as (Ld & Fd).
  destruct (diagonal_rows (S m - 1) 1 (firstcolumn r) (diagonal r)) as [lasts diagonal'].
  cbn [fst snd] in *. subst weout clearout.
  eexists _, _. split; [reflexivity | ]. cbn [s_lastcolumn s_switchout s_weout s_clearout switchout].
  repeat split; try assumption.
  - cbn [List.length]. rewrite Ld. lia.
  - constructor; [reflexivity | assumption].
Qed.

Lemma accumulators_loop_built (accsize : nat) (datas_in : list WireVector) :
  forall (bs : list accumregs) (waddr we wclear raddr lastvec : WireVector),
    len we = 1%nat -> len wclear = 1%nat ->
    exists accs don bs',
      accumulators_loop accsize bs datas_in waddr we wclear raddr lastvec
      = Ok (accs, don, bs').
Proof.
  induction datas_in as [ | x datas_in IH]; intros bs waddr we wclear raddr lastvec He Hc.
  - cbn. eauto.
  - cbn [accumulators_loop]. unfold accum.
    rewrite !predicate_bit
      by (unfold len, wand, wnot in *; cbn [bitwidth]; now rewrite He, Hc).
    cbn [bind a_waddr a_wen a_wclear a_last].
    destruct (IH (tl bs) (Wire (len waddr) (waddrsave (hd accum_reset bs)))
                (Wire 1 (wensave (hd accum_reset bs)))
                (Wire 1 (wclearsave (hd accum_reset bs))) raddr
                (Wire 1 (lastsave (hd accum_reset bs))) eq_refl eq_refl)
      as (accs & don & bs' & E).
    rewrite E. cbn [bind]. eauto.
Qed.

Lemma FIFO_built (matsize : nat) (r : FIFOregs) (mem_data : WireVector) (v b : Z) :
  exists tile fl r',
    FIFO matsize r mem_data (Wire 1 v) (Wire 1 b)
    = Ok (tile, wand (wnot (Wire 1 (empty4 r))) (wnot (Wire 1 b)), fl, r').
Proof.
  unfold FIFO, FIFO_moves. rewrite !predicate_bit by reflexivity.
  cbn [bind]. do 3 eexists. reflexivity.
Qed.

Lemma MMU_control_built (wait count start switch ready : Z) :
  exists wait' count' we dp,
    MMU_control MATSIZE wait count start (Wire 1 switch) (Wire 1 ready)
    = Ok (wait', count', Wire 1 we, dp).
Proof.
  unfold MMU_control. rewrite !predicate_bit by reflexivity. cbn [bind].
  do 4 eexists. reflexivity.
Qed.

(** The array is built for any activations of [DATWIDTH] bits and any switch
    bits, one per row, and its cells keep bits in their selector and switch
    registers. *)
Lemma MMArray_built (r : MMArrayregs) (data_in new_weights : list WireVector) (tile we : Z) :
  array_wf r ->
  List.length data_in = MATSIZE -> Forall (fun w => len w = DATWIDTH) data_in ->
  List.length new_weights = MATSIZE ->
  Forall (fun w => len w = 1%nat /\ bit (value w)) new_weights ->
  exists outs r',
    MMArray DATWIDTH MATSIZE r data_in new_weights
      (Wire (MATSIZE * MATSIZE * DATWIDTH) tile) (Wire 1 we) = Ok (outs, r') /\
    List.length outs = MATSIZE /\ array_wf r'.
Proof.
  intros Hwf Ld Fd Ls Fs.
  destruct (MMArray_top_built r tile) as (top & Etop & Ltop & Hok & _).
  destruct (MMArray_sequencer_built r we) as (p & s & Eseq).
  destruct (MAC_rows_cells DATWIDTH MATSIZE data_in new_weights Fd Fs
              MATSIZE 0%nat (cells r) top)
    as (cells' & out & Erows & Lout & Hcells); try lia; try assumption.
  - intros k j Hk Hj. apply Hwf; [assumption | lia].
  - unfold MMArray. rewrite Etop. cbn [bind]. rewrite Erows. cbn [bind].
    rewrite Eseq. cbn [bind]. eexists _, _. split; [reflexivity | ].
    split; [rewrite length_map; lia | ].
    intros i j Hi Hj. unfold cell. cbn [cells].
    apply (cell_cycle_wf _ _ _ (Hcells i j Hi ltac:(lia))). now apply Hwf.
Qed.

(** Every cycle of the unit is built, whatever its inputs, from a state in
    which these registers hold bits; the next state is such a state. *)
Lemma cycle_built (r : MMUregs) (i : MMUinputs) :
  MMU_wf r -> exists w r', cycle r i = Ok (w, r') /\ MMU_wf r'.
Proof.
  intros [Harr Hsw]. unfold cycle, testall_MMU, MMU.
  destruct (FIFO_built MATSIZE (fifo r) (memdata (ddr_data i)) (ddr_valid i) 0)
    as (tile & fl & fifo' & EF).
  rewrite EF. cbn [bind].
  destruct (systolic_setup_wires 3 (setup r)
              (Wire (MATSIZE * DATWIDTH) (vector_in i)) (Wire 8 (accum_waddr i))
              (Wire 1 (vec_valid i)) (Wire 1 (accum_overwrite i)) (Wire 1 (lastvec i))
              (Wire 1 (switch_weights i)) Hsw)
    as (so & setup' & ES & Ll & Fl & Lw & Fw & Hwe & Hcl & Hsw').
  change (systolic_setup MATSIZE) with (systolic_setup 4). rewrite ES. cbn [bind].
  change (wand (wnot (Wire 1 (empty4 (fifo r)))) (wnot (Wire 1 0)))
    with (Wire 1 (Z.land (Z.lxor (empty4 (fifo r)) 1) 1)).
  destruct (MMU_control_built (weights_wait r) (weights_count r) (startup r)
              (switch_weights i) (Z.land (Z.lxor (empty4 (fifo r)) 1) 1))
    as (wait' & count' & we & dp & EC).
  rewrite EC. cbn [bind].
  assert (Etile : tile = Wire (MATSIZE * MATSIZE * DATWIDTH) (buf4 (fifo r))).
  { unfold FIFO in EF. rewrite !predicate_bit in EF by reflexivity.
    unfold FIFO_moves in EF. rewrite !predicate_bit in EF by reflexivity.
    cbn [bind] in EF. now injection EF as <- _ _. }
  subst tile.
  destruct (MMArray_built (array r) (s_lastcolumn so) (s_switchout so)
              (buf4 (fifo r)) we Harr Ll Fl Lw Fw)
    as (mouts & array' & EA & Lm & Harr').
  rewrite EA. cbn [bind].
  destruct mouts as [ | x mouts]; [discriminate | ]. unfold accumulators.
  destruct (accumulators_loop_built ACCSIZE (x :: mouts) (banks r) (s_addrout so)
              (s_weout so) (s_clearout so) (Wire 12 (accum_raddr i)) (s_doneout so)
              Hwe Hcl)
    as (accs & don & banks' & EB).
  rewrite EB. cbn [bind]. eexists _, _. split; [reflexivity | ].
  split; assumption.
Qed.

Lemma reset_wf : MMU_wf testall_reset.
Proof.
  split.
  - intros i j Hi Hj. unfold MATSIZE in *.
    destruct i as [ | [ | [ | [ | i ] ] ] ]; [ | | | | lia ];
      (destruct j as [ | [ | [ | [ | j ] ] ] ]; [ | | | | lia ]);
      split; left; reflexivity.
  - intros k. cbn. destruct k as [ | [ | [ | [ | [ | k ] ] ] ] ]; now left.
Qed.

Lemma reachable_wf (r : MMUregs) : reachable r -> MMU_wf r.
Proof.
  induction 1 as [ | r i w r' _ IH E]; [exact reset_wf | ].
  destruct (cycle_built r i IH) as (w1 & r1 & E1 & Hwf).
  unfold cycle in E1. rewrite E in E1. now injection E1 as _ <-.
Qed.

(** After reset the unit is built in every cycle, for every input; [step]
    then either passes or raises the exception of [rtl_assert]. *)
Lemma reachable_cycle_built (r : MMUregs) (i : MMUinputs) :
  reachable r -> exists w r', cycle r i = Ok (w, r') /\ reachable r'.
Proof.
  intros H. destruct (cycle_built r i (reachable_wf r H)) as (w & r' & E & _).
  exists w, r'. split; [exact E | ]. exact (reachable_cycle r i w r' H E).
Qed.

(** * The array, cell by cell *)

Section ExactRows.

Variables data_width matrix_size : nat.

Lemma left_data_tl (din : WireVector) (row : list MACregs) (j : nat) :
  left_data (Wire (len din) (data_reg (hd MAC_reset row))) (tl row) j
  = left_data din row (S j).
Proof.
  destruct j as [ | j]; cbn [left_data len bitwidth].
  - now rewrite hd_nth.
  - now rewrite nth_tl.
Qed.

Lemma left_switch_tl (sw : WireVector) (row : list MACregs) (j : nat) :
  left_switch (Wire 1 (switch_reg (hd MAC_reset row))) (tl row) j
  = left_switch sw row (S j).
Proof.
  destruct j as [ | j]; cbn [left_switch].
  - now rewrite hd_nth.
  - now rewrite nth_tl.
Qed.

(** One row of cells, with the inputs of every cell. *)
Lemma MAC_row_exact (cols : list Column) :
  forall (row : list MACregs) (din switchin : WireVector),
    len din = data_width -> len switchin = 1%nat ->
    Forall (column_ok data_width) cols ->
    exists row' out,
      MAC_row data_width matrix_size row din switchin cols = Ok (row', out) /\
      List.length row' = List.length cols /\ List.length out = List.length cols /\
      forall j, (j < List.length cols)%nat ->
        let c := nth j cols Column_none in
        nth j row' MAC_reset
        = MAC_next (nth j row MAC_reset) (left_data din row j) (c_acc c)
            (left_switch switchin row j) (c_weight c) (c_we c) (c_tag c) /\
        nth j out Column_none
        = below (MAC_outs (nth j row MAC_reset) (left_data din row j) (c_acc c)
                   (left_switch switchin row j) (c_weight c) (c_tag c)).
Proof.
  induction cols as [ | col cols IH]; intros row din sw Hd Hs Hok.
  - exists [], []. cbn. repeat split; intros; lia.
  - inversion Hok as [ | ? ? [Hw He] Hok']; subst.
    cbn [MAC_row].
    rewrite MAC_built by (auto; right; assumption). cbn [bind].
    destruct (IH (tl row) (Wire (len din) (data_reg (hd MAC_reset row)))
                 (Wire 1 (switch_reg (hd MAC_reset row))) eq_refl eq_refl Hok')
      as (row' & out & E & L1 & L2 & Hcells).
    unfold MAC_outs at 1 2. cbn [o_data o_switch]. rewrite E. cbn [bind].
    eexists _, _. split; [reflexivity | ].
    cbn [List.length]. split; [congruence | ]. split; [congruence | ].
    intros [ | j] Hj; cbv zeta.
    + cbn [nth left_data left_switch]. rewrite <- hd_nth. split; reflexivity.
    + cbn [nth]. specialize (Hcells j ltac:(lia)). cbv zeta in Hcells.
      rewrite nth_tl, left_data_tl, (left_switch_tl sw) in Hcells. exact Hcells.
Qed.

Lemma column_at_tl (top top' : list Column) (rows : list (list MACregs))
    (data_in new_weights : list WireVector) (i0 j : nat) :
  nth j top' Column_none = column_at top rows data_in new_weights i0 1 j ->
  forall k,
    column_at top' (tl rows) data_in new_weights (S i0) k j
    = column_at top rows data_in new_weights i0 (S k) j.
Proof.
  intros H0. induction k as [ | k IH]; [exact H0 | ].
  cbn [column_at] in *. rewrite IH. rewrite !nth_tl.
  replace (S i0 + k)%nat with (i0 + S k)%nat by lia. reflexivity.
Qed.

(** The rows of cells, with the inputs of every cell. *)
Lemma MAC_rows_exact (data_in new_weights : list WireVector) :
  Forall (fun w => len w = data_width) data_in ->
  Forall (fun w => len w = 1%nat) new_weights ->
  forall (n i0 : nat) (rows : list (list MACregs)) (cols : list Column),
    (i0 + n <= List.length data_in)%nat -> (i0 + n <= List.length new_weights)%nat ->
    Forall (column_ok data_width) cols ->
    exists rows' out,
      MAC_rows data_width matrix_size n i0 rows data_in new_weights cols = Ok (rows', out) /\
      List.length out = List.length cols /\
      (forall j, (j < List.length cols)%nat ->
         nth j out Column_none = column_at cols rows data_in new_weights i0 n j) /\
      forall k j, (k < n)%nat -> (j < List.length cols)%nat ->
        let c := column_at cols rows data_in new_weights i0 k j in
        let row := nth k rows [] in
        nth j (nth k rows' []) MAC_reset
        = MAC_next (nth j row MAC_reset)
            (left_data (nth (i0 + k) data_in (Wire 0 0)) row j) (c_acc c)
            (left_switch (nth (i0 + k) new_weights (Wire 0 0)) row j)
            (c_weight c) (c_we c) (c_tag c).
Proof.
  intros Hdata Hsw. induction n as [ | n IH]; intros i0 rows cols Hi1 Hi2 Hok.
  - exists [], cols. cbn. repeat split; intros; lia.
  - cbn [MAC_rows].
    rewrite (index_ok data_in i0 (Wire 0 0)) by lia.
    rewrite (index_ok new_weights i0 (Wire 0 0)) by lia. cbn [bind].
    assert (Hd : len (nth i0 data_in (Wire 0 0)) = data_width).
    { apply (proj1 (Forall_nth _ data_in) Hdata). lia. }
    assert (Hs : len (nth i0 new_weights (Wire 0 0)) = 1%nat).
    { apply (proj1 (Forall_nth _ new_weights) Hsw). lia. }
    destruct (MAC_row_exact cols (hd [] rows) _ _ Hd Hs Hok)
      as (row' & cols' & E & L1 & L2 & Hcells).
    rewrite E. cbn [bind].
    assert (Hfirst : forall j, (j < List.length cols)%nat ->
              nth j cols' Column_none = column_at cols rows data_in new_weights i0 1 j).
    { intros j Hj. destruct (Hcells j Hj) as [_ Hout]. cbv zeta in Hout.
      cbn [column_at]. rewrite Nat.add_0_r, <- hd_nth. exact Hout. }
    assert (Hok' : Forall (column_ok data_width) cols').
    { apply Forall_nth. intros j d Hj. rewrite (nth_indep _ d Column_none Hj).
      rewrite Hfirst by lia. cbn [column_at]. unfold column_ok, below, MAC_outs.
      cbn [c_weight c_we o_weight o_weight_we len bitwidth]. split; [ | reflexivity ].
      apply (proj1 (Forall_nth _ cols) Hok). lia. }
    destruct (IH (S i0) (tl rows) cols') as (rows' & out & E' & L3 & Hout & Hrest);
      try lia; try assumption.
    rewrite E'. cbn [bind]. eexists _, _. split; [reflexivity | ].
    split; [congruence | ]. split.
    + intros j Hj. rewrite Hout by lia.
      apply (column_at_tl cols cols' rows data_in new_weights i0 j). now apply Hfirst.
    + intros [ | k] j Hk Hj; cbv zeta.
      * cbn [nth column_at]. rewrite Nat.add_0_r, <- hd_nth.
        apply (Hcells j Hj).
      * cbn [nth]. specialize (Hrest k j ltac:(lia) ltac:(lia)). cbv zeta in Hrest.
        rewrite (column_at_tl cols cols' rows data_in new_weights i0 j) in Hrest
          by (now apply Hfirst).
        rewrite !nth_tl in Hrest.
        replace (S i0 + k)%nat with (i0 + S k)%nat in Hrest by lia. exact Hrest.
Qed.

End ExactRows.

(** The sum of a cell whose partial sum is narrower than 32 bits is not
    sliced: [out] is one bit wider than the wider of product and partial sum
    and carries the exact sum. *)
Lemma MAC_out_unsliced (r : MACregs) (data_in acc_in switchw weight_in : WireVector) :
  len data_in = DATWIDTH -> len weight_in = DATWIDTH -> (len acc_in <= 31)%nat ->
  MAC_out r data_in acc_in switchw weight_in
  = Wire (out_width (len acc_in))
         (active_buffer (Z.lxor (current_buffer_reg r) (value switchw)) r * value data_in
          + value acc_in).
Proof.
  intros Hd Hw Ha. unfold MAC_out, out_width.
  assert (Hl : len (wadd (wmul (MAC_weight r switchw weight_in) data_in) acc_in)
               = S (Nat.max 16 (len acc_in))).
  { unfold wadd, wmul, MAC_weight, select, PyRTL.Register, len in *. cbn [bitwidth].
    rewrite Hd, Hw. reflexivity. }
  rewrite Hl.
  destruct (Nat.ltb_spec 32 (S (Nat.max 16 (len acc_in)))) as [Hgt | _]; [lia | ].
  unfold wadd, wmul, MAC_weight, select, MAC_current_buffer, wxor, PyRTL.Register,
    active_buffer, len in *.
  cbn [bitwidth value]. rewrite Hd, Hw.
  destruct (Z.lxor (current_buffer_reg r) (value switchw) =? 0); reflexivity.
Qed.

Lemma acc_width_values :
  acc_width 0 = 1%nat /\ acc_width 1 = 17%nat /\ acc_width 2 = 18%nat
  /\ acc_width 3 = 19%nat /\ acc_width 4 = 20%nat.
Proof. repeat split. Qed.

Lemma acc_width_small (k : nat) : (k <= 4)%nat -> (acc_width k <= 20)%nat.
Proof.
  intros H. destruct k as [ | [ | [ | [ | [ | k ] ] ] ] ]; cbn; lia.
Qed.

Lemma MMArray_top_acc (r : MMArrayregs) (tile : Z) (top : list Column) :
  MMArray_top DATWIDTH MATSIZE r (Wire (MATSIZE * MATSIZE * DATWIDTH) tile) = Ok top ->
  forall j, (j < MATSIZE)%nat -> c_acc (nth j top Column_none) = Const 0.
Proof.
  unfold MMArray_top, mux. cbn [bitwidth PyRTL.Register].
  change ((2 ^ progstep_size =? List.length (weight_arr DATWIDTH MATSIZE _))%nat) with true.
  cbn [bind]. intros [= <-] j Hj. unfold MATSIZE in Hj.
  destruct j as [ | [ | [ | [ | j ] ] ] ]; [reflexivity .. | lia].
Qed.

Section ArrayCycle.

Variables (r : MMArrayregs) (inp : arrayinputs).
Hypothesis Hdata : List.length (a_data inp) = MATSIZE.
Hypothesis Hswitch : List.length (a_switch inp) = MATSIZE.

Let data_in := map (Wire DATWIDTH) (a_data inp).
Let new_weights := map (Wire 1) (a_switch inp).

Lemma data_in_nth (i : nat) :
  (i < MATSIZE)%nat -> nth i data_in (Wire 0 0) = Wire DATWIDTH (nth i (a_data inp) 0).
Proof.
  intros Hi. unfold data_in.
  rewrite (nth_indep _ (Wire 0 0) (Wire DATWIDTH 0)) by (rewrite length_map; lia).
  apply map_nth.
Qed.

Lemma new_weights_nth (i : nat) :
  (i < MATSIZE)%nat -> nth i new_weights (Wire 0 0) = Wire 1 (nth i (a_switch inp) 0).
Proof.
  intros Hi. unfold new_weights.
  rewrite (nth_indep _ (Wire 0 0) (Wire 1 0)) by (rewrite length_map; lia).
  apply map_nth.
Qed.

(** The widths and the register values of the signals that enter row [k]
    from above. *)
Lemma column_at_shape (top : list Column) (k j : nat) :
  MMArray_top DATWIDTH MATSIZE r (Wire (MATSIZE * MATSIZE * DATWIDTH) (a_tile inp)) = Ok top ->
  (k <= MATSIZE)%nat -> (j < MATSIZE)%nat ->
  let c := column_at top (cells r) data_in new_weights 0 k j in
  len (c_weight c) = DATWIDTH /\ len (c_tag c) = DATWIDTH /\ len (c_we c) = 1%nat /\
  c_acc c = Wire (acc_width k) (acc_at r k j).
Proof.
  intros Etop Hk Hj. cbv zeta.
  destruct (MMArray_top_built r (a_tile inp)) as (top' & Etop' & _ & _ & Htop).
  rewrite Etop in Etop'. injection Etop' as <-.
  induction k as [ | k IH].
  - cbn [column_at acc_at acc_width]. destruct (Htop j Hj) as (Ee & Et & Ew).
    rewrite Ee, Et, Ew, (MMArray_top_acc r _ top Etop j Hj). repeat split.
  - destruct (IH ltac:(lia)) as (Lw & Lt & Le & Eacc).
    cbn [column_at below MAC_outs c_weight c_tag c_we c_acc o_weight o_weight_tag
         o_weight_we o_acc len bitwidth].
    repeat split; try assumption.
    rewrite Nat.add_0_l, data_in_nth by (unfold MATSIZE in *; lia).
    rewrite MAC_out_unsliced.
    + rewrite Eacc. cbn [len bitwidth acc_width acc_at]. reflexivity.
    + destruct j; reflexivity.
    + exact Lw.
    + rewrite Eacc. cbn [len bitwidth]. pose proof (acc_width_small k).
      unfold MATSIZE in *. lia.
Qed.

(** One cycle of the array on its own, with the inputs of every cell. *)
Lemma array_cycle_exact :
  exists top outs r',
    MMArray_top DATWIDTH MATSIZE r (Wire (MATSIZE * MATSIZE * DATWIDTH) (a_tile inp)) = Ok top /\
    array_cycle r inp = Ok (outs, r') /\
    MMArray_sequencer r (Wire 1 (a_we inp)) = Ok (programming r', progstep r') /\
    (forall i j, (i < MATSIZE)%nat -> (j < MATSIZE)%nat ->
       let c := column_at top (cells r) data_in new_weights 0 i j in
       cell r' i j
       = MAC_next (cell r i j) (Wire DATWIDTH (data_at r inp i j))
           (Wire (acc_width i) (acc_at r i j)) (Wire 1 (switch_at r inp i j))
           (c_weight c) (c_we c) (c_tag c)) /\
    (forall j, (j < MATSIZE)%nat ->
       nth j outs (Wire 0 0) = Wire (acc_width MATSIZE) (acc_at r MATSIZE j)).
Proof.
  destruct (MMArray_top_built r (a_tile inp)) as (top & Etop & Ltop & Hok & _).
  destruct (MMArray_sequencer_built r (a_we inp)) as (p & s & Eseq).
  destruct (MAC_rows_exact DATWIDTH MATSIZE data_in new_weights) with (n := MATSIZE)
    (i0 := 0%nat) (rows := cells r) (cols := top)
    as (cells' & out & Erows & Lout & Hout & Hcells).
  - unfold data_in. apply Forall_map. apply Forall_forall. reflexivity.
  - unfold new_weights. apply Forall_map. apply Forall_forall. reflexivity.
  - unfold data_in. rewrite length_map. lia.
  - unfold new_weights. rewrite length_map. lia.
  - exact Hok.
  - exists top. unfold array_cycle, MMArray. rewrite Etop. cbn [bind].
    fold data_in new_weights. rewrite Erows. cbn [bind]. rewrite Eseq. cbn [bind].
    eexists _, _. split; [reflexivity | ]. split; [reflexivity | ].
    split; [reflexivity | ]. split.
    + intros i j Hi Hj. cbv zeta. unfold cell at 1. cbn [cells].
      rewrite (Hcells i j Hi ltac:(lia)). cbv zeta.
      destruct (column_at_shape top i j Etop ltac:(lia) Hj) as (_ & _ & _ & Eacc).
      rewrite Eacc. rewrite Nat.add_0_l, data_in_nth, new_weights_nth by assumption.
      unfold cell. destruct j; reflexivity.
    + intros j Hj.
      rewrite (nth_indep _ (Wire 0 0) (c_acc Column_none)) by (rewrite length_map; lia).
      rewrite map_nth, Hout by lia.
      now destruct (column_at_shape top MATSIZE j Etop ltac:(lia) Hj) as (_ & _ & _ & ->).
Qed.

(** The registers of every cell of the array after a cycle: the activation
    and the switch bit move one cell to the right, the partial sum one cell
    down with the product added, the selector follows the switch bit, and
    the buffer the cell multiplies by keeps its weight. *)
Lemma array_cycle_values :
  exists outs r',
    array_cycle r inp = Ok (outs, r') /\
    (forall j, (j < MATSIZE)%nat ->
       nth j outs (Wire 0 0) = Wire (acc_width MATSIZE) (acc_at r MATSIZE j)) /\
    forall i j, (i < MATSIZE)%nat -> (j < MATSIZE)%nat ->
      data_reg (cell r' i j) = truncate DATWIDTH (data_at r inp i j) /\
      switch_reg (cell r' i j) = truncate 1 (switch_at r inp i j) /\
      acc_reg (cell r' i j)
      = truncate (acc_width (S i))
          (weight_at r inp i j * data_at r inp i j + acc_at r i j) /\
      (switch_at r inp i j = 0 ->
       current_buffer_reg (cell r' i j) = current_buffer_reg (cell r i j) /\
       active_buffer (current_buffer_reg (cell r i j)) (cell r' i j)
       = active_buffer (current_buffer_reg (cell r i j)) (cell r i j)).
Proof.
  destruct array_cycle_exact as (top & outs & r' & Etop & Ecyc & _ & Hcells & Houts).
  exists outs, r'. split; [exact Ecyc | ]. split; [exact Houts | ].
  intros i j Hi Hj. specialize (Hcells i j Hi Hj). cbv zeta in Hcells.
  destruct (column_at_shape top i j Etop ltac:(lia) Hj) as (Lw & _ & _ & _).
  rewrite Hcells. unfold MAC_next.
  cbn [data_reg switch_reg acc_reg current_buffer_reg wbuf1 wbuf2].
  rewrite MAC_out_unsliced; [ | reflexivity | exact Lw | ].
  2:{ cbn [len bitwidth]. pose proof (acc_width_small i). unfold MATSIZE in *. lia. }
  unfold next. cbn [len bitwidth value acc_width].
  split; [reflexivity | ]. split; [reflexivity | ]. split; [reflexivity | ].
  intros Hsw. rewrite Hsw. unfold is_set, active_buffer, MAC_current_buffer, wxor, wand,
    wnot, weq, Const, PyRTL.Register. cbn [value bitwidth].
  split; [reflexivity | ]. rewrite Z.lxor_0_r.
  destruct (current_buffer_reg (cell r i j) =? 0).
  - change (Z.lxor 1 (Z.ones (Z.of_nat 1))) with 0. now rewrite Z.land_0_r.
  - now rewrite Z.land_0_r.
Qed.

End ArrayCycle.

(** * The array computes the product of the vector and the weights *)

Lemma array_run_app (xs ys : list arrayinputs) (r : MMArrayregs) :
  array_run r (xs ++ ys) = (r' <- array_run r xs ;; array_run r' ys).
Proof.
  revert r. induction xs as [ | x xs IH]; intros r; [reflexivity | ].
  cbn [array_run app]. destruct (array_cycle r x) as [[o r1] | msg];
    cbn [bind]; [apply IH | reflexivity].
Qed.

Lemma firstn_succ {A : Type} (n : nat) (l : list A) (d : A) :
  (n < List.length l)%nat -> firstn (S n) l = firstn n l ++ [nth n l d].
Proof.
  revert l. induction n as [ | n IH]; intros [ | x l] H; cbn in *; try lia.
  - reflexivity.
  - f_equal. apply IH. lia.
Qed.

Lemma quiet_switch_at (W : nat -> nat -> Z) (r : MMArrayregs) (inp : arrayinputs) (i j : nat) :
  stationary W r -> quiet inp -> (i < MATSIZE)%nat -> (j < MATSIZE)%nat ->
  switch_at r inp i j = 0 /\ weight_at r inp i j = W i j.
Proof.
  intros Hst (_ & Hsw & _) Hi Hj.
  assert (H0 : switch_at r inp i j = 0).
  { destruct j as [ | j]; cbn [switch_at].
    - rewrite Hsw. unfold MATSIZE in *.
      destruct i as [ | [ | [ | [ | i ] ] ] ]; [reflexivity .. | lia].
    - apply Hst; lia. }
  split; [exact H0 | ]. unfold weight_at. rewrite H0, Z.lxor_0_r. now apply Hst.
Qed.

(** A cycle without a switch request keeps the weights stationary, whatever
    the sequencer does meanwhile. *)
Lemma stationary_cycle (W : nat -> nat -> Z) (r r' : MMArrayregs) (inp : arrayinputs)
    (outs : list WireVector) :
  stationary W r -> quiet inp -> array_cycle r inp = Ok (outs, r') -> stationary W r'.
Proof.
  intros Hst Hq E i j Hi Hj.
  destruct Hq as (Hd & Hs & Hb).
  destruct (array_cycle_values r inp Hd) as (outs1 & r1 & E1 & _ & Hv).
  { rewrite Hs. apply repeat_length. }
  rewrite E in E1. injection E1 as <- <-.
  destruct (Hv i j Hi Hj) as (_ & Esw & _ & Hsel).
  destruct (quiet_switch_at W r inp i j Hst (conj Hd (conj Hs Hb)) Hi Hj) as [H0 _].
  destruct (Hsel H0) as [Ec Ea].
  rewrite Esw, H0, Ec, Ea. split; [reflexivity | now apply Hst].
Qed.

Section DotProduct.

Variables (W : nat -> nat -> Z) (a : nat -> Z).
Variables (r0 : MMArrayregs) (ins : list arrayinputs) (t0 : nat).

Hypothesis HW : forall i j, (i < MATSIZE)%nat -> (j < MATSIZE)%nat -> 0 <= W i j < 2 ^ 8.
Hypothesis Hstat : stationary W r0.
Hypothesis Hquiet : Forall quiet ins.
(** Row [i] receives the element [a i] of the vector in cycle [t0 + i]. *)
Hypothesis Ha : forall i, (i < MATSIZE)%nat ->
  nth i (a_data (nth (t0 + i) ins arrayinputs_none)) 0 = a i.
Hypothesis Hlen : (t0 + 2 * MATSIZE <= List.length ins)%nat.

(** The state of the array after [n] cycles. *)
Let state_at (n : nat) : MMArrayregs :=
  match array_run r0 (firstn n ins) with
  | Ok r => r
  | Raise _ => r0
  end.

Lemma quiet_nth (n : nat) : (n < List.length ins)%nat -> quiet (nth n ins arrayinputs_none).
Proof. intros H. now apply (proj1 (Forall_nth _ ins) Hquiet). Qed.

Lemma state_at_run (n : nat) :
  (n <= List.length ins)%nat ->
  array_run r0 (firstn n ins) = Ok (state_at n) /\ stationary W (state_at n).
Proof.
  induction n as [ | n IH]; intros Hn.
  - unfold state_at. cbn. now split.
  - destruct (IH ltac:(lia)) as [E Hst].
    pose proof (quiet_nth n ltac:(lia)) as Hq.
    destruct (array_cycle_values (state_at n) (nth n ins arrayinputs_none))
      as (outs & r' & Ec & _); [apply Hq | | ].
    { destruct Hq as (_ & -> & _). apply repeat_length. }
    assert (Erun : array_run r0 (firstn (S n) ins) = Ok r').
    { rewrite (firstn_succ n ins arrayinputs_none) by lia.
      rewrite array_run_app, E. cbn [bind array_run]. rewrite Ec. reflexivity. }
    unfold state_at at 1 2. rewrite Erun. split; [reflexivity | ].
    exact (stationary_cycle W _ _ _ _ Hst Hq Ec).
Qed.

Lemma state_at_cycle (n : nat) :
  (n < List.length ins)%nat ->
  exists outs,
    array_cycle (state_at n) (nth n ins arrayinputs_none) = Ok (outs, state_at (S n)).
Proof.
  intros Hn. destruct (state_at_run n ltac:(lia)) as [E _].
  destruct (state_at_run (S n) ltac:(lia)) as [E' _].
  rewrite (firstn_succ n ins arrayinputs_none) in E' by lia.
  rewrite array_run_app, E in E'. cbn [bind array_run] in E'.
  destruct (array_cycle (state_at n) (nth n ins arrayinputs_none)) as [[outs r'] | ];
    [ | discriminate ].
  cbn [bind] in E'. injection E' as <-. now exists outs.
Qed.

Lemma a_byte (i : nat) : (i < MATSIZE)%nat -> 0 <= a i < 2 ^ 8.
Proof.
  intros Hi. rewrite <- (Ha i Hi).
  destruct (quiet_nth (t0 + i) ltac:(unfold MATSIZE in *; lia)) as (Hd & _ & Hb).
  apply (proj1 (Forall_nth _ _) Hb). lia.
Qed.

(** The element [a i] is in the data register of the cell of column [j] of
    row [i] after cycle [t0 + i + j]. *)
Lemma data_flow (i j : nat) :
  (i < MATSIZE)%nat -> (j < MATSIZE)%nat ->
  data_reg (cell (state_at (t0 + i + j + 1)) i j) = a i.
Proof.
  intros Hi. induction j as [ | j IH]; intros Hj.
  - destruct (state_at_cycle (t0 + i + 0)) as (outs & E);
      [unfold MATSIZE in *; lia | ].
    pose proof (quiet_nth (t0 + i + 0) ltac:(unfold MATSIZE in *; lia)) as (Hd & Hs & _).
    destruct (array_cycle_values (state_at (t0 + i + 0)) _ Hd) as (o1 & r1 & E1 & _ & Hv).
    { rewrite Hs. apply repeat_length. }
    replace (t0 + i + 0 + 1)%nat with (S (t0 + i + 0)) by lia.
    rewrite E in E1. injection E1 as _ <-.
    destruct (Hv i 0%nat Hi Hj) as (Ed & _). rewrite Ed. cbn [data_at].
    rewrite Nat.add_0_r, (Ha i Hi). apply truncate_small, (a_byte i Hi).
  - destruct (state_at_cycle (t0 + i + S j)) as (outs & E);
      [unfold MATSIZE in *; lia | ].
    pose proof (quiet_nth (t0 + i + S j) ltac:(unfold MATSIZE in *; lia)) as (Hd & Hs & _).
    destruct (array_cycle_values (state_at (t0 + i + S j)) _ Hd) as (o1 & r1 & E1 & _ & Hv).
    { rewrite Hs. apply repeat_length. }
    replace (t0 + i + S j + 1)%nat with (S (t0 + i + S j)) by lia.
    rewrite E in E1. injection E1 as _ <-.
    destruct (Hv i (S j) Hi Hj) as (Ed & _). rewrite Ed. cbn [data_at].
    replace (t0 + i + S j)%nat with (t0 + i + j + 1)%nat by lia.
    rewrite IH by lia. apply truncate_small, (a_byte i Hi).
Qed.

Lemma partial_sum_bound (j n : nat) :
  (n <= MATSIZE)%nat -> (j < MATSIZE)%nat ->
  0 <= partial_sum W a j n <= Z.of_nat n * (255 * 255).
Proof.
  intros Hn Hj. induction n as [ | n IH]; [cbn; lia | ].
  cbn [partial_sum]. specialize (IH ltac:(lia)).
  pose proof (HW n j ltac:(lia) Hj). pose proof (a_byte n ltac:(lia)).
  change (2 ^ 8) with 256 in *. nia.
Qed.

(** In cycle [t0 + i + j] the cell of row [i] and column [j] adds
    [W i j * a i] to the partial sum that comes from above. *)
Lemma acc_step (i j : nat) :
  (i < MATSIZE)%nat -> (j < MATSIZE)%nat ->
  acc_reg (cell (state_at (S (t0 + i + j))) i j)
  = truncate (acc_width (S i)) (W i j * a i + acc_at (state_at (t0 + i + j)) i j).
Proof.
  intros Hi Hj.
  destruct (state_at_cycle (t0 + i + j)) as (outs & E); [unfold MATSIZE in *; lia | ].
  pose proof (quiet_nth (t0 + i + j) ltac:(unfold MATSIZE in *; lia)) as Hq.
  destruct (state_at_run (t0 + i + j) ltac:(unfold MATSIZE in *; lia)) as [_ Hst].
  assert (Hq' := Hq). destruct Hq' as (Hd & Hs & _).
  destruct (array_cycle_values (state_at (t0 + i + j)) _ Hd) as (o1 & r1 & E1 & _ & Hv);
    [rewrite Hs; apply repeat_length | ].
  rewrite E in E1. injection E1 as _ <-.
  destruct (Hv i j Hi Hj) as (_ & _ & Eacc & _). rewrite Eacc.
  destruct (quiet_switch_at W _ _ i j Hst Hq Hi Hj) as [_ ->].
  assert (Ed : data_at (state_at (t0 + i + j)) (nth (t0 + i + j) ins arrayinputs_none) i j
               = a i).
  { destruct j as [ | j]; cbn [data_at].
    - rewrite Nat.add_0_r. apply (Ha i Hi).
    - replace (t0 + i + S j)%nat with (t0 + i + j + 1)%nat by lia.
      apply data_flow; lia. }
  now rewrite Ed.
Qed.

(** The partial sum of the rows 0 to [i] is in the sum register of the cell
    of row [i] and column [j] after cycle [t0 + i + j]: it is exact, the
    registers of the array are wide enough for it. *)
Lemma acc_flow (i j : nat) :
  (i < MATSIZE)%nat -> (j < MATSIZE)%nat ->
  acc_reg (cell (state_at (t0 + i + j + 1)) i j) = partial_sum W a j (S i).
Proof.
  revert j. induction i as [ | i IH]; intros j Hi Hj.
  - replace (t0 + 0 + j + 1)%nat with (S (t0 + 0 + j)) by lia.
    rewrite acc_step by assumption. cbn [acc_at partial_sum].
    pose proof (HW 0%nat j Hi Hj). pose proof (a_byte 0%nat Hi).
    rewrite truncate_small; [lia | ].
    change (2 ^ Z.of_nat (acc_width 1)) with 131072. change (2 ^ 8) with 256 in *. nia.
  - replace (t0 + S i + j + 1)%nat with (S (t0 + S i + j)) by lia.
    rewrite acc_step by assumption. cbn [acc_at].
    replace (t0 + S i + j)%nat with (t0 + i + j + 1)%nat by lia.
    rewrite (IH j ltac:(lia) Hj).
    pose proof (HW (S i) j Hi Hj). pose proof (a_byte (S i) Hi).
    pose proof (partial_sum_bound j (S i) ltac:(lia) Hj) as Hps.
    cbn [partial_sum] in *.
    rewrite truncate_small; [lia | ].
    assert (Hpow : Z.of_nat (S (S i)) * 65536 <= 2 ^ Z.of_nat (acc_width (S (S i)))).
    { unfold MATSIZE in Hi. destruct i as [ | [ | [ | i ] ] ]; [cbn; lia .. | lia]. }
    change (2 ^ 8) with 256 in *. nia.
Qed.

(** The sum for column [j] leaves the array in cycle [t0 + MATSIZE + j]. *)
Lemma dot_product_out (j : nat) :
  (j < MATSIZE)%nat ->
  exists r outs r',
    array_run r0 (firstn (t0 + MATSIZE + j) ins) = Ok r /\
    array_cycle r (nth (t0 + MATSIZE + j) ins arrayinputs_none) = Ok (outs, r') /\
    nth j outs (Wire 0 0) = Wire 20 (partial_sum W a j MATSIZE).
Proof.
  intros Hj.
  destruct (state_at_run (t0 + MATSIZE + j) ltac:(unfold MATSIZE in *; lia)) as [E _].
  pose proof (quiet_nth (t0 + MATSIZE + j) ltac:(unfold MATSIZE in *; lia)) as (Hd & Hs & _).
  destruct (array_cycle_values (state_at (t0 + MATSIZE + j)) _ Hd) as (outs & r' & Ec & Ho & _);
    [rewrite Hs; apply repeat_length | ].
  exists (state_at (t0 + MATSIZE + j)), outs, r'.
  split; [exact E | ]. split; [exact Ec | ].
  rewrite (Ho j Hj). change (acc_width MATSIZE) with 20%nat. f_equal.
  change (acc_at (state_at (t0 + MATSIZE + j)) MATSIZE j)
    with (acc_reg (cell (state_at (t0 + MATSIZE + j)) 3 j)).
  replace (t0 + MATSIZE + j)%nat with (t0 + 3 + j + 1)%nat by (unfold MATSIZE; lia).
  apply acc_flow; [unfold MATSIZE; lia | assumption].
Qed.

End DotProduct.

(** X1: the array computes the matrix-vector product.  While the active
    weights of the cells are the matrix [W] and no row requests a switch,
    a vector whose element [i] enters row [i] in cycle [t0 + i] gives, on
    output [j] of the array in cycle [t0 + MATSIZE + j], the 20-bit wire
    holding the exact sum of [W i j * a i] over the rows: no partial sum is
    cut by the widths of the sum registers, and what the sequencer does to
    the inactive buffers meanwhile does not matter. *)
Theorem MMArray_dot_product (W : nat -> nat -> Z) (a : nat -> Z)
    (r0 : MMArrayregs) (ins : list arrayinputs) (t0 j : nat) :
  (forall i j, (i < MATSIZE)%nat -> (j < MATSIZE)%nat -> 0 <= W i j < 2 ^ 8) ->
  stationary W r0 ->
  Forall quiet ins ->
  (forall i, (i < MATSIZE)%nat ->
     nth i (a_data (nth (t0 + i) ins arrayinputs_none)) 0 = a i) ->
  (t0 + 2 * MATSIZE <= List.length ins)%nat ->
  (j < MATSIZE)%nat ->
  exists r outs r',
    array_run r0 (firstn (t0 + MATSIZE + j) ins) = Ok r /\
    array_cycle r (nth (t0 + MATSIZE + j) ins arrayinputs_none) = Ok (outs, r') /\
    nth j outs (Wire 0 0) = Wire 20 (partial_sum W a j MATSIZE).
Proof.
  intros HW Hstat Hquiet Ha Hlen Hj.
  exact (dot_product_out W a r0 ins t0 HW Hstat Hquiet Ha Hlen j Hj).
Qed.

Lemma MMArray_dot_product_witness :
  exists r outs r',
    array_run {| cells := loaded_cells weights; programming := 0; progstep := 0 |}
      (firstn (0 + MATSIZE + 0) (repeat (mkarrayinputs vector0 [0; 0; 0; 0] 0 0) 8)) = Ok r /\
    array_cycle r (nth (0 + MATSIZE + 0) (repeat (mkarrayinputs vector0 [0; 0; 0; 0] 0 0) 8)
                     arrayinputs_none) = Ok (outs, r') /\
    nth 0 outs (Wire 0 0)
    = Wire 20 (partial_sum (fun i j => nth j (nth i (rev weights) []) 0)
                 (fun i => nth i vector0 0) 0 MATSIZE).
Proof.
  apply (MMArray_dot_product (fun i j => nth j (nth i (rev weights) []) 0)
           (fun i => nth i vector0 0)
           {| cells := loaded_cells weights; programming := 0; progstep := 0 |}
           (repeat (mkarrayinputs vector0 [0; 0; 0; 0] 0 0) 8) 0 0).
  - intros i j Hi Hj. unfold MATSIZE in *.
    destruct i as [ | [ | [ | [ | i ] ] ] ]; [ | | | | lia ];
      (destruct j as [ | [ | [ | [ | j ] ] ] ]; [ | | | | lia ]); cbn; lia.
  - intros i j Hi Hj. unfold MATSIZE in *.
    destruct i as [ | [ | [ | [ | i ] ] ] ]; [ | | | | lia ];
      (destruct j as [ | [ | [ | [ | j ] ] ] ]; [ | | | | lia ]); split; reflexivity.
  - repeat constructor; cbn; lia.
  - intros i Hi. unfold MATSIZE in *.
    destruct i as [ | [ | [ | [ | i ] ] ] ]; [ | | | | lia ]; reflexivity.
  - cbn. lia.
  - unfold MATSIZE. lia.
Defined.

(** * The accumulator banks *)

Lemma accum_built (size : nat) (r : accumregs)
    (data_in waddr wen wclear raddr lastvec : WireVector) :
  len wen = 1%nat -> len wclear = 1%nat ->
  accum size r data_in waddr wen wclear raddr lastvec
  = Ok ({| a_data_out := Wire 32 (mem r (value raddr));
           a_waddr := Wire (len waddr) (waddrsave r);
           a_wen := Wire 1 (wensave r);
           a_wclear := Wire 1 (wclearsave r);
           a_last := Wire 1 (lastsave r) |},
        accum_next r data_in waddr wen wclear lastvec).
Proof.
  intros He Hc. unfold accum.
  rewrite !predicate_bit
    by (unfold len, wand, wnot in *; cbn [bitwidth]; now rewrite He, Hc).
  reflexivity.
Qed.

(** The memory of a bank after a cycle with one-bit controls: an overwrite
    stores the sum, an accumulate adds it modulo [2^32], and no other cell
    changes. *)
Lemma accum_next_mem (r : accumregs) (data_in waddr lastvec : WireVector) (wen wclear a : Z) :
  bit wen -> bit wclear ->
  mem (accum_next r data_in waddr (Wire 1 wen) (Wire 1 wclear) lastvec) a
  = if (wen =? 1) && (a =? value waddr)
    then if wclear =? 1 then truncate 32 (value data_in)
         else truncate 32 (value data_in + mem r (value waddr))
    else mem r a.
Proof.
  intros Hw Hc. unfold accum_next, mem_write, is_set, wand, wnot, slice, wadd.
  cbn [mem value bitwidth].
  replace (Nat.min 32 (S (Nat.max (bitwidth data_in) 32)) - 0)%nat with 32%nat by lia.
  rewrite Z.shiftr_0_r, truncate_idem.
  destruct Hw as [-> | ->], Hc as [-> | ->]; cbn; try reflexivity;
    destruct (a =? value waddr); reflexivity.
Qed.

(** The banks, one by one: every bank is built and takes the controls of
    [bank_ctl]; the output of bank [k] is what its memory holds at the read
    address before the cycle's write. *)
Lemma accumulators_loop_exact (accsize : nat) (raddr : WireVector) (datas_in : list WireVector) :
  forall (bs : list accumregs) (ctl : bankctl),
    len (b_wen ctl) = 1%nat -> len (b_wclear ctl) = 1%nat ->
    exists accs don bs',
      accumulators_loop accsize bs datas_in (b_waddr ctl) (b_wen ctl) (b_wclear ctl)
        raddr (b_last ctl) = Ok (accs, don, bs') /\
      List.length accs = List.length datas_in /\
      don = b_last (bank_ctl bs ctl (List.length datas_in)) /\
      forall k, (k < List.length datas_in)%nat ->
        let c := bank_ctl bs ctl k in
        nth k bs' accum_reset
        = accum_next (nth k bs accum_reset) (nth k datas_in (Wire 0 0))
            (b_waddr c) (b_wen c) (b_wclear c) (b_last c) /\
        nth k accs (Wire 0 0) = Wire 32 (mem (nth k bs accum_reset) (value raddr)).
Proof.
  induction datas_in as [ | x datas_in IH]; intros bs ctl He Hc.
  - exists [], (b_last ctl), []. cbn [accumulators_loop List.length bank_ctl].
    split; [reflexivity | ]. split; [reflexivity | ]. split; [reflexivity | ].
    intros k Hk. inversion Hk.
  - cbn [accumulators_loop]. rewrite accum_built by assumption.
    cbn [bind a_waddr a_wen a_wclear a_last a_data_out].
    destruct (IH (tl bs)
                {| b_waddr := Wire (len (b_waddr ctl)) (waddrsave (hd accum_reset bs));
                   b_wen := Wire 1 (wensave (hd accum_reset bs));
                   b_wclear := Wire 1 (wclearsave (hd accum_reset bs));
                   b_last := Wire 1 (lastsave (hd accum_reset bs)) |} eq_refl eq_refl)
      as (accs & don & bs' & E & L & Hdon & Hk).
    cbn [b_waddr b_wen b_wclear b_last] in E. rewrite E. cbn [bind].
    eexists _, _, _. split; [reflexivity | ].
    cbn [List.length]. split; [congruence | ]. split.
    + rewrite Hdon. destruct (List.length datas_in) as [ | n]; cbn [bank_ctl].
      * now rewrite hd_nth.
      * rewrite nth_tl. reflexivity.
    + intros [ | k] Hlt; cbv zeta.
      * cbn [nth bank_ctl]. rewrite <- hd_nth. split; reflexivity.
      * cbn [nth]. specialize (Hk k ltac:(lia)). cbv zeta in Hk.
        rewrite !nth_tl in Hk.
        destruct k as [ | k]; cbn [bank_ctl b_waddr b_wen b_wclear b_last len bitwidth] in *.
        -- rewrite hd_nth in Hk. exact Hk.
        -- rewrite nth_tl in Hk. exact Hk.
Qed.

(** X: overwrite, accumulate, read.  A bank that overwrites address [A] with
    [x] and accumulates [y] at [A] in the next cycle holds
    [(x mod 2^32 + y) mod 2^32] at [A]; the read of [A] in the cycle of the
    second write still returns [x mod 2^32], and the cells at other
    addresses keep their values through both writes. *)
Theorem accum_overwrite_then_accumulate (size : nat) (r : accumregs)
    (x y waddr raddr l1 l2 : WireVector) :
  exists o1 r1 o2 r2,
    accum size r x waddr (Wire 1 1) (Wire 1 1) raddr l1 = Ok (o1, r1) /\
    accum size r1 y waddr (Wire 1 1) (Wire 1 0) waddr l2 = Ok (o2, r2) /\
    a_data_out o1 = Wire 32 (mem r (value raddr)) /\
    a_data_out o2 = Wire 32 (truncate 32 (value x)) /\
    mem r2 (value waddr) = truncate 32 (truncate 32 (value x) + value y) /\
    forall a, a <> value waddr -> mem r2 a = mem r a.
Proof.
  rewrite accum_built by reflexivity. eexists _, _.
  rewrite accum_built by reflexivity. eexists _, _.
  split; [reflexivity | ]. split; [reflexivity | ].
  split; [reflexivity | ].
  assert (H1 : forall a, mem (accum_next r x waddr (Wire 1 1) (Wire 1 1) l1) a
                         = if a =? value waddr then truncate 32 (value x) else mem r a).
  { intros a. rewrite accum_next_mem by (now right). reflexivity. }
  cbn [a_data_out]. split; [ | split ].
  - now rewrite H1, Z.eqb_refl.
  - rewrite accum_next_mem by (unfold bit; auto). cbn [andb Z.eqb Pos.eqb].
    rewrite Z.eqb_refl, H1, Z.eqb_refl. f_equal. lia.
  - intros a Ha. rewrite accum_next_mem by (unfold bit; auto).
    apply Z.eqb_neq in Ha. cbn [Z.eqb Pos.eqb andb]. rewrite Ha, H1, Ha. reflexivity.
Qed.
